(** * The sequential IP allocator of the host-local IPAM plugin

    Shallow embedding of [plugins/ipam/allocator/sequential/allocator.go]:
    addresses are Go byte slices ([list byte], the nil slice being the empty
    list), the store behind the [backend.Store] interface is a type class
    whose state is threaded explicitly, and every store call is recorded in
    a trace of events so that statements about which addresses are offered
    to [Reserve] can be made. *)

From Stdlib Require Import String ZArith List Bool Lia Sorted.
From coqutil Require Import Byte Word.LittleEndianList.
Import ListNotations.
Local Open Scope Z_scope.

(** ** Bytes (Go's [uint8]) *)

Definition byte_or (a b : byte) : byte :=
  byte.of_Z (Z.lor (byte.unsigned a) (byte.unsigned b)).

(** [^m] on a [uint8]: the complement, wrapped to eight bits. *)
Definition byte_not (a : byte) : byte :=
  byte.of_Z (Z.lnot (byte.unsigned a)).

Fixpoint bytesEqual (a b : list byte) : bool :=
  match a, b with
  | [], [] => true
  | x :: a', y :: b' => Byte.eqb x y && bytesEqual a' b'
  | _, _ => false
  end.

(** ** The parts of Go's [net] package the allocator calls *)

Module net.

Definition IP := list byte.
Definition IPMask := list byte.

Record IPNet := mkIPNet { IPNet_IP : IP; IPNet_Mask : IPMask }.

Definition IPv4len : nat := 4.
Definition IPv6len : nat := 16.

Definition v4InV6Prefix : list byte :=
  [Byte.x00; Byte.x00; Byte.x00; Byte.x00; Byte.x00; Byte.x00;
   Byte.x00; Byte.x00; Byte.x00; Byte.x00; Byte.xff; Byte.xff].

(** [ip == nil]: slices reaching the allocator come from [ParseIP],
    [ParseCIDR], [To4], [To16] and [NextIP], which yield nil or a
    non-empty slice. *)
Definition is_nil (ip : list byte) : bool :=
  match ip with [] => true | _ :: _ => false end.

Definition isZeros (p : list byte) : bool := forallb (Byte.eqb Byte.x00) p.

Definition To4 (ip : IP) : IP :=
  if Nat.eqb (length ip) IPv4len then ip
  else if Nat.eqb (length ip) IPv6len
          && isZeros (firstn 10 ip)
          && Byte.eqb (nth 10 ip Byte.x00) Byte.xff
          && Byte.eqb (nth 11 ip Byte.x00) Byte.xff
       then firstn 4 (skipn 12 ip)
       else [].

Definition To16 (ip : IP) : IP :=
  if Nat.eqb (length ip) IPv4len then v4InV6Prefix ++ ip
  else if Nat.eqb (length ip) IPv6len then ip
       else [].

Definition Equal (ip x : IP) : bool :=
  if Nat.eqb (length ip) (length x) then bytesEqual ip x
  else if Nat.eqb (length ip) IPv4len && Nat.eqb (length x) IPv6len
       then bytesEqual (firstn 12 x) v4InV6Prefix && bytesEqual ip (skipn 12 x)
  else if Nat.eqb (length ip) IPv6len && Nat.eqb (length x) IPv4len
       then bytesEqual (firstn 12 ip) v4InV6Prefix && bytesEqual (skipn 12 ip) x
  else false.

Definition networkNumberAndMask (n : IPNet) : IP * IPMask :=
  let ip := To4 (IPNet_IP n) in
  let ip' := if is_nil ip then IPNet_IP n else ip in
  if is_nil ip && negb (Nat.eqb (length ip') IPv6len) then ([], [])
  else
    let m := IPNet_Mask n in
    if Nat.eqb (length m) IPv4len then
      if negb (Nat.eqb (length ip') IPv4len) then ([], []) else (ip', m)
    else if Nat.eqb (length m) IPv6len then
      if Nat.eqb (length ip') IPv4len then (ip', skipn 12 m) else (ip', m)
    else ([], []).

(** The comparison loop of [Contains]; on the paths that reach it the
    three slices have one length, so walking them together is the indexed
    loop [for i := 0; i < l; i++]. *)
Fixpoint maskedEqual (nn m ip : list byte) : bool :=
  match nn, m, ip with
  | n :: nn', k :: m', x :: ip' =>
      if Byte.eqb (byte.and n k) (byte.and x k)
      then maskedEqual nn' m' ip' else false
  | _, _, _ => true
  end.

Definition Contains (n : IPNet) (ip : IP) : bool :=
  let '(nn, m) := networkNumberAndMask n in
  let x := To4 ip in
  let ip' := if is_nil x then ip else x in
  if negb (Nat.eqb (length ip') (length nn)) then false
  else maskedEqual nn m ip'.

End net.
Import net.

(** ** [pkg/ip]: NextIP *)

(** The bytes of an address read as a big-endian integer
    ([big.Int.SetBytes]). *)
Definition be_decode (l : list byte) : Z := le_combine (rev l).

(** The [n]-byte big-endian representation of [v], truncated to [n] bytes. *)
Definition be_encode (n : nat) (v : Z) : list byte := rev (le_split n v).

(** Modelled from the spec: [ip.NextIP] lives in [pkg/ip], whose source is
    not available with the allocator's.  The spec's NextAddress "returns the address
    numerically one greater than addr, treating the address as a fixed-width
    big-endian integer (carries across all bytes, including overflow within
    the fixed width)". *)
Definition NextIP (ip : IP) : IP := be_encode (length ip) (be_decode ip + 1).

(** ** Errors *)

(** The allocator builds its errors with [fmt.Errorf]; one constructor per
    message, carrying the values the message is formatted from.  A store
    reports failures of its own as [StoreError]. *)
Inductive error : Type :=
| ErrMissingSubnet                            (* missing field "subnet" in IPAM configuration *)
| ErrNotV4NorV6                               (* IP not v4 nor v6 *)
| ErrVersionMismatch                          (* IPNet IP and Mask version mismatch *)
| ErrNotInNetwork (ip : IP) (n : IPNet)       (* %s not in network: %s *)
| ErrRequestedIsGateway                       (* requested IP must differ gateway IP *)
| ErrRequestedUnavailable (ip : IP) (name : string)
                                              (* requested IP address %q is not available in network: %s *)
| ErrNoAddresses (name : string)              (* no IP addresses available in network: %s *)
| StoreError (msg : string).

Inductive result (A : Type) : Type :=
| Ok (a : A)
| Err (e : error).
Arguments Ok {A} a.
Arguments Err {A} e.

(** ** Configuration and result types *)

(** [types.Route]: passed through to the result, never inspected. *)
Record Route := mkRoute { Dst : IPNet; GW : IP }.

(** [IPAMArgs]: the per-invocation arguments; only the requested address is
    read by the allocator. *)
Record IPAMArgs := mkIPAMArgs { Args_IP : IP }.

(** [IPAMConfig], with the fields the allocator reads. *)
Record IPAMConfig := mkIPAMConfig {
  Name : string;
  Subnet : IPNet;
  RangeStart : IP;
  RangeEnd : IP;
  Gateway : IP;
  Routes : list Route;
  Args : option IPAMArgs
}.

(** [types.IPConfig]. *)
Record IPConfig := mkIPConfig {
  IPConfig_IP : IPNet;
  IPConfig_Gateway : IP;
  IPConfig_Routes : list Route
}.

(** ** The store interface *)

(** [backend.Store], restricted to the methods the allocator calls.  Every
    method may change the store, so each returns the new state. *)
Class Store (St : Type) := {
  Lock : St -> St;
  Unlock : St -> St;
  Reserve : string -> IP -> St -> result bool * St;
  LastReservedIP : St -> result IP * St;
  ReleaseByID : string -> St -> option error * St
}.

(** What a call of the allocator does to its environment, in order. *)
Inductive Event : Type :=
| EvLock
| EvUnlock
| EvReserve (id : string) (ip : IP)
| EvLastReservedIP
| EvReleaseByID (id : string)
| EvLog (e : error).

(** ** The allocator *)

Record IPAllocator := mkIPAllocator {
  start : IP;
  end_ : IP;
  conf : IPAMConfig
}.

Definition validateRangeIP (ip : IP) (ipnet : IPNet) : option error :=
  if negb (Contains ipnet ip) then Some (ErrNotInNetwork ip ipnet) else None.

(** The loop [for i := 0; i < len(ip); i++ { end = append(end, ip[i]|^Mask[i]) }];
    [n] counts the iterations left. *)
Fixpoint networkRange_loop (n i : nat) (ip : IP) (mask : IPMask) (end' : IP) : IP :=
  match n with
  | O => end'
  | S n' =>
      networkRange_loop n' (S i) ip mask
        (end' ++ [byte_or (nth i ip Byte.x00) (byte_not (nth i mask Byte.x00))])
  end.

(** The local [ip] of [networkRange]: [To4()] of the address, else its
    [To16()], nil when it is neither. *)
Definition v4or16 (ip : IP) : IP :=
  if is_nil (To4 ip) then To16 ip else To4 ip.

Definition networkRange (ipnet : IPNet) : result (IP * IP) :=
  if is_nil (IPNet_IP ipnet) then Err ErrMissingSubnet
  else
    let ip := v4or16 (IPNet_IP ipnet) in
    if is_nil ip then Err ErrNotV4NorV6
    else if negb (Nat.eqb (length ip) (length (IPNet_Mask ipnet)))
    then Err ErrVersionMismatch
    else Ok (IPNet_IP ipnet,
             networkRange_loop (length ip) 0 ip (IPNet_Mask ipnet) []).

Definition nextIP (a : IPAllocator) (curIP : IP) : IP :=
  if Equal curIP (end_ a) then start a else NextIP curIP.

(** The gateway [Get] resolves: the configured one, else the address after
    the subnet's. *)
Definition resolveGateway (c : IPAMConfig) : IP :=
  if is_nil (Gateway c) then NextIP (IPNet_IP (Subnet c)) else Gateway c.

(** The address requested through the arguments, nil when there is none. *)
Definition requestedIP (c : IPAMConfig) : IP :=
  match Args c with
  | Some args => Args_IP args
  | None => []
  end.

Definition subnetOf (c : IPAMConfig) : IPNet :=
  {| IPNet_IP := IPNet_IP (Subnet c); IPNet_Mask := IPNet_Mask (Subnet c) |}.

Definition ipConfigFor (c : IPAMConfig) (ip gw : IP) : IPConfig :=
  {| IPConfig_IP := {| IPNet_IP := ip; IPNet_Mask := IPNet_Mask (Subnet c) |};
     IPConfig_Gateway := gw;
     IPConfig_Routes := Routes c |}.

Section Allocator.

Context {St : Type} {store : Store St}.

(** [NewIPAllocator] receives the store only to keep it in the allocator;
    the store state and the events come back as they went in. *)
Definition NewIPAllocator (c : IPAMConfig) (s : St)
  : result IPAllocator * St * list Event :=
  match networkRange (Subnet c) with
  | Err e => (Err e, s, [])
  | Ok (start0, end0) =>
      (* skip the .0 address *)
      let start1 := NextIP start0 in
      match (if negb (is_nil (RangeStart c))
             then match validateRangeIP (RangeStart c) (Subnet c) with
                  | Some e => Err e
                  | None => Ok (RangeStart c)
                  end
             else Ok start1) with
      | Err e => (Err e, s, [])
      | Ok start2 =>
          match (if negb (is_nil (RangeEnd c))
                 then match validateRangeIP (RangeEnd c) (Subnet c) with
                      | Some e => Err e
                      | None => Ok (NextIP (RangeEnd c)) (* RangeEnd is inclusive *)
                      end
                 else Ok end0) with
          | Err e => (Err e, s, [])
          | Ok end2 => (Ok (mkIPAllocator start2 end2 c), s, [])
          end
      end
  end.

(** The flag [startFromLastReservedIP] of [getSearchRange], from what
    [LastReservedIP] returned. *)
Definition startFromLastReservedIP (a : IPAllocator) (r : result IP) : bool :=
  match r with
  | Err _ => false
  | Ok lastReservedIP =>
      if negb (is_nil lastReservedIP)
      then match validateRangeIP lastReservedIP (subnetOf (conf a)) with
           | None => true
           | Some _ => false
           end
      else false
  end.

Definition getSearchRange (a : IPAllocator) (s : St)
  : (IP * IP) * St * list Event :=
  let '(r, s1) := LastReservedIP s in
  match r with
  | Err e =>
      (* log.Printf("Error retriving last reserved ip: %v", err) *)
      ((start a, end_ a), s1, [EvLastReservedIP; EvLog e])
  | Ok lastReservedIP =>
      if startFromLastReservedIP a r
      then ((nextIP a lastReservedIP, lastReservedIP), s1, [EvLastReservedIP])
      else ((start a, end_ a), s1, [EvLastReservedIP])
  end.

(** The search loop of [Get],
    [for cur := startIP; !cur.Equal(endIP); cur = a.nextIP(cur)].
    The loop need not stop, so it runs on fuel: one unit per iteration,
    [None] when the fuel is gone. *)
Fixpoint search (fuel : nat) (a : IPAllocator) (gw : IP) (id : string)
         (endIP cur : IP) (s : St) : option (result IPConfig * St * list Event) :=
  match fuel with
  | O => None
  | S fuel' =>
      if Equal cur endIP
      then Some (Err (ErrNoAddresses (Name (conf a))), s, [])
      else if negb (is_nil gw) && Equal cur gw
      then (* don't allocate gateway IP *)
        search fuel' a gw id endIP (nextIP a cur) s
      else
        let '(r, s1) := Reserve id cur s in
        match r with
        | Err e => Some (Err e, s1, [EvReserve id cur])
        | Ok true => Some (Ok (ipConfigFor (conf a) cur gw), s1, [EvReserve id cur])
        | Ok false =>
            match search fuel' a gw id endIP (nextIP a cur) s1 with
            | None => None
            | Some (r', s2, tr) => Some (r', s2, EvReserve id cur :: tr)
            end
        end
  end.

(** The body of [Get], between [Lock] and the deferred [Unlock]. *)
Definition Get_locked (fuel : nat) (a : IPAllocator) (id : string) (s : St)
  : option (result IPConfig * St * list Event) :=
  let gw := resolveGateway (conf a) in
  let requested := requestedIP (conf a) in
  if negb (is_nil requested) then
    if negb (is_nil gw) && Equal gw requested
    then Some (Err ErrRequestedIsGateway, s, [])
    else
      match validateRangeIP requested (subnetOf (conf a)) with
      | Some e => Some (Err e, s, [])
      | None =>
          let '(r, s1) := Reserve id requested s in
          match r with
          | Err e => Some (Err e, s1, [EvReserve id requested])
          | Ok true =>
              Some (Ok (ipConfigFor (conf a) requested gw), s1,
                    [EvReserve id requested])
          | Ok false =>
              Some (Err (ErrRequestedUnavailable requested (Name (conf a))),
                    s1, [EvReserve id requested])
          end
      end
  else
    let '(range, s1, tr1) := getSearchRange a s in
    match search fuel a gw id (snd range) (fst range) s1 with
    | None => None
    | Some (r, s2, tr2) => Some (r, s2, tr1 ++ tr2)
    end.

Definition Get (fuel : nat) (a : IPAllocator) (id : string) (s : St)
  : option (result IPConfig * St * list Event) :=
  match Get_locked fuel a id (Lock s) with
  | None => None
  | Some (r, s1, tr) => Some (r, Unlock s1, EvLock :: tr ++ [EvUnlock])
  end.

Definition Release (a : IPAllocator) (id : string) (s : St)
  : option error * St * list Event :=
  let '(e, s1) := ReleaseByID id (Lock s) in
  (e, Unlock s1, [EvLock; EvReleaseByID id; EvUnlock]).

End Allocator.

(** ** An in-memory store *)

(** Modelled from the spec: the implementations of [backend.Store] (the
    disk store of [plugins/ipam/store/disk]) are not available with the
    allocator's source.  This is the store contract of the spec, section
    4.3, as an in-memory table: Reservation Records [(address, ownerID)]
    with unique addresses, and the Last-Reserved Marker (nil while never
    set). *)
Record MemStore := mkMemStore {
  records : list (IP * string);
  marker : IP
}.

(** Modelled from the spec: whether an address "has an existing owner"
    ([Reserve] of the missing store).  Addresses are compared as the
    allocator compares them, with [net.IP.Equal]. *)
Definition owned (ip : IP) (rs : list (IP * string)) : bool :=
  existsb (fun r => Equal (fst r) ip) rs.

(** Modelled from the spec: [Reserve] of the missing store,
    "atomically inserts (address, ownerID) iff address has no existing owner;
    returns reserved=false (not an error) if already owned by anyone ...
    Also updates the Last-Reserved Marker to address on success." *)
Definition mem_Reserve (id : string) (ip : IP) (s : MemStore) : result bool * MemStore :=
  if owned ip (records s) then (Ok false, s)
  else (Ok true, {| records := records s ++ [(ip, id)]; marker := ip |}).

(** Modelled from the spec: [ReleaseByID] of the missing store,
    "removes all records owned by ownerID; never errors for not found". *)
Definition mem_ReleaseByID (id : string) (s : MemStore) : option error * MemStore :=
  (None, {| records := filter (fun r => negb (String.eqb (snd r) id)) (records s);
            marker := marker s |}).

(** Modelled from the spec: [LastReservedIP] of the missing store,
    "returns the current Marker, or none if never set". *)
Definition mem_LastReservedIP (s : MemStore) : result IP * MemStore :=
  (Ok (marker s), s).

(** Modelled from the spec: the missing store as an instance of the
    interface; within one process [Lock] and [Unlock] have nothing to do. *)
#[export] Instance memStore : Store MemStore := {
  Lock := fun s => s;
  Unlock := fun s => s;
  Reserve := mem_Reserve;
  LastReservedIP := mem_LastReservedIP;
  ReleaseByID := mem_ReleaseByID
}.

(** Modelled from the spec: the same table behind a medium whose marker
    cannot be read, every [LastReservedIP] failing with an I/O error (the
    StoreIOError of the spec, section 4.3). *)
Definition unreadableMarkerStore : Store MemStore := {|
  Lock := fun s => s;
  Unlock := fun s => s;
  Reserve := mem_Reserve;
  LastReservedIP := fun s => (Err (StoreError "read last_reserved_ip"), s);
  ReleaseByID := mem_ReleaseByID
|}.

Definition emptyStore : MemStore := {| records := []; marker := [] |}.

(** ** Concrete addresses *)

(** The four-byte address [a.b.c.d]. *)
Definition ip4 (a b c d : Z) : IP :=
  [byte.of_Z a; byte.of_Z b; byte.of_Z c; byte.of_Z d].

(** The sixteen-byte (IPv4-in-IPv6) form of [a.b.c.d], as [net.ParseIP]
    returns it. *)
Definition ip4in6 (a b c d : Z) : IP := v4InV6Prefix ++ ip4 a b c d.

(** A configuration with only a name and a subnet. *)
Definition plainConfig (name : string) (subnet : IPNet) : IPAMConfig :=
  {| Name := name; Subnet := subnet; RangeStart := []; RangeEnd := [];
     Gateway := []; Routes := []; Args := None |}.

(** The scenario of the spec: subnet 10.0.0.0/30. *)
Definition conf30 : IPAMConfig :=
  plainConfig "net30" (mkIPNet (ip4 10 0 0 0) (ip4 255 255 255 252)).

(** A /24 with an inclusive range .10 to .20. *)
Definition conf24range : IPAMConfig :=
  {| Name := "net24"; Subnet := mkIPNet (ip4 10 0 0 0) (ip4 255 255 255 0);
     RangeStart := ip4 10 0 0 10; RangeEnd := ip4 10 0 0 20;
     Gateway := []; Routes := []; Args := None |}.


(** [conf30] with the address [ip] requested through the arguments. *)
Definition conf30requesting (ip : IP) : IPAMConfig :=
  {| Name := "net30"; Subnet := Subnet conf30;
     RangeStart := []; RangeEnd := []; Gateway := []; Routes := [];
     Args := Some (mkIPAMArgs ip) |}.

(** [conf30] with the range made to start at 10.0.0.0. *)
Definition conf30from0 : IPAMConfig :=
  {| Name := "net30"; Subnet := Subnet conf30;
     RangeStart := ip4 10 0 0 0; RangeEnd := []; Gateway := []; Routes := [];
     Args := None |}.

(** The allocators [NewIPAllocator] builds from these configurations. *)
Definition alloc30 : IPAllocator :=
  mkIPAllocator (ip4 10 0 0 1) (ip4 10 0 0 3) conf30.

Definition alloc24range : IPAllocator :=
  mkIPAllocator (ip4 10 0 0 10) (ip4 10 0 0 21) conf24range.


Definition alloc30from0 : IPAllocator :=
  mkIPAllocator (ip4 10 0 0 0) (ip4 10 0 0 3) conf30from0.

Definition alloc30requesting (ip : IP) : IPAllocator :=
  mkIPAllocator (ip4 10 0 0 1) (ip4 10 0 0 3) (conf30requesting ip).

(** A store holding the given records, with the given marker. *)
Definition storeWith (rs : list (IP * string)) (m : IP) : MemStore :=
  {| records := rs; marker := m |}.

(** ** Vocabulary of the statements *)

(** A slice of one of the two address widths. *)
Definition validLen (ip : IP) : Prop :=
  length ip = IPv4len \/ length ip = IPv6len.

(** An address as a number: its sixteen-byte form read as a big-endian
    integer, so that the two forms of an IPv4 address have one value. *)
Definition addr (ip : IP) : Z := be_decode (To16 ip).

(** The value of the prefix that marks an IPv4 address in sixteen bytes,
    shifted over the four address bytes. *)
Definition v4base : Z := 65535 * 2 ^ 32.

(** The largest number an address of the width of [ip] can have. *)
Definition addrTop (ip : IP) : Z :=
  if Nat.eqb (length ip) IPv4len then v4base + 2 ^ 32 - 1 else 2 ^ 128 - 1.

(** An allocator whose [start] does not lie beyond its [end]: both are
    addresses, [start] is not the greater number, and [end] is an IPv4
    address when [start] is a four-byte slice. *)
Definition orderedRange (a : IPAllocator) : Prop :=
  validLen (start a) /\ validLen (end_ a) /\
  addr (start a) <= addr (end_ a) /\
  (length (start a) = IPv4len -> To4 (end_ a) <> []).

(** The addresses a trace passes to [Reserve], in order. *)
Fixpoint reserved (tr : list Event) : list IP :=
  match tr with
  | [] => []
  | EvReserve _ ip :: tr' => ip :: reserved tr'
  | _ :: tr' => reserved tr'
  end.

(** How often a trace calls [LastReservedIP]. *)
Definition markerReads (tr : list Event) : nat :=
  List.length (filter (fun e => match e with EvLastReservedIP => true | _ => false end) tr).

Fixpoint zipWith (f : byte -> byte -> byte) (a b : list byte) : list byte :=
  match a, b with
  | x :: a', y :: b' => f x y :: zipWith f a' b'
  | _, _ => []
  end.

(** The network address of a subnet: its address with the host bits
    cleared ([ip.Mask(mask)]). *)
Definition networkAddress (n : IPNet) : IP :=
  zipWith byte.and (v4or16 (IPNet_IP n)) (IPNet_Mask n).

(** The broadcast address of a subnet: its address with the host bits set. *)
Definition broadcastAddress (n : IPNet) : IP :=
  zipWith (fun x m => byte_or x (byte_not m)) (v4or16 (IPNet_IP n)) (IPNet_Mask n).

(** An address between the network address and the broadcast address of a
    subnet, both included, and of the subnet's family. *)
Definition inSubnetNumbers (n : IPNet) (x : IP) : Prop :=
  validLen x /\
  addr (networkAddress n) <= addr x <= addr (broadcastAddress n) /\
  (length x = IPv4len -> length (broadcastAddress n) = IPv4len).

(** The same, above the network address. *)
Definition aboveNetwork (n : IPNet) (x : IP) : Prop :=
  inSubnetNumbers n x /\ addr (networkAddress n) < addr x.

(** [n] consecutive addresses from [ip] on. *)
Fixpoint walk (n : nat) (ip : IP) : list IP :=
  match n with
  | O => []
  | S n' => ip :: walk n' (NextIP ip)
  end.

(** The gateway check of the search loop: whether the candidate [ip] is
    let through to [Reserve]. *)
Definition notGateway (gw : IP) (ip : IP) : bool :=
  negb (negb (is_nil gw) && Equal ip gw).

Section NoWrap.

Context {St : Type} {store : Store St}.


End NoWrap.



(** When [networkRange] fails, as the specification words it: the subnet
    has no address, or address and mask differ in byte width. *)
Definition specNetworkRangeFails (n : IPNet) : Prop :=
  IPNet_IP n = [] \/ length (IPNet_IP n) <> length (IPNet_Mask n).

(** ** The plugin commands *)

(** [skel.CmdArgs], with the fields the commands read. *)
Record CmdArgs := mkCmdArgs {
  ContainerID : string;
  CmdArgs_Args : string;
  StdinData : list byte
}.

(** What a command does, in order: opening and closing the store, the
    calls on the store in between, and printing the result. *)
Inductive CmdEvent : Type :=
| EvNew (c : IPAMConfig)       (* disk.New(ipamConf) *)
| EvClose                      (* store.Close(), deferred *)
| EvPrint (ipConf : IPConfig)  (* (&types.Result{IP4: ipConf}).Print() *)
| EvStore (e : Event).

Section Commands.

Context {St : Type} {store : Store St}.

(** The functions of other packages that the commands call:
    [sequential.LoadIPAMConfig], [disk.New] (with the state it leaves the
    medium in), [Close] of the store, whose error the deferred call drops,
    and [Print] of [types.Result]. *)
Variable LoadIPAMConfig : list byte -> string -> result IPAMConfig.
Variable disk_New : IPAMConfig -> St -> option error * St.
Variable Close : St -> St.
Variable Print : IPConfig -> option error.

Definition cmdAdd (fuel : nat) (args : CmdArgs) (s : St)
  : option (option error * St * list CmdEvent) :=
  match LoadIPAMConfig (StdinData args) (CmdArgs_Args args) with
  | Err e => Some (Some e, s, [])
  | Ok ipamConf =>
      let '(err, s1) := disk_New ipamConf s in
      match err with
      | Some e => Some (Some e, s1, [EvNew ipamConf])
      | None =>
          (* defer store.Close() *)
          let '(ra, s2, tr2) := NewIPAllocator ipamConf s1 in
          match ra with
          | Err e =>
              Some (Some e, Close s2, EvNew ipamConf :: map EvStore tr2 ++ [EvClose])
          | Ok allocator =>
              match Get fuel allocator (ContainerID args) s2 with
              | None => None
              | Some (Err e, s3, tr3) =>
                  Some (Some e, Close s3,
                        EvNew ipamConf :: map EvStore (tr2 ++ tr3) ++ [EvClose])
              | Some (Ok ipConf, s3, tr3) =>
                  Some (Print ipConf, Close s3,
                        EvNew ipamConf
                          :: (map EvStore (tr2 ++ tr3) ++ [EvPrint ipConf]) ++ [EvClose])
              end
          end
      end
  end.

Definition cmdDel (args : CmdArgs) (s : St) : option error * St * list CmdEvent :=
  match LoadIPAMConfig (StdinData args) (CmdArgs_Args args) with
  | Err e => (Some e, s, [])
  | Ok ipamConf =>
      let '(err, s1) := disk_New ipamConf s in
      match err with
      | Some e => (Some e, s1, [EvNew ipamConf])
      | None =>
          (* defer store.Close() *)
          let '(ra, s2, tr2) := NewIPAllocator ipamConf s1 in
          match ra with
          | Err e => (Some e, Close s2, EvNew ipamConf :: map EvStore tr2 ++ [EvClose])
          | Ok allocator =>
              let '(e, s3, tr3) := Release allocator (ContainerID args) s2 in
              (e, Close s3, EvNew ipamConf :: map EvStore (tr2 ++ tr3) ++ [EvClose])
          end
      end
  end.

End Commands.

(** ** Vocabulary of the further statements *)

(** An address of the closed range from [start] to [end] of an allocator,
    of a width that can count up to [end]. *)
Definition inClosedRange (a : IPAllocator) (x : IP) : Prop :=
  validLen x /\ addr (start a) <= addr x <= addr (end_ a) /\
  addr (end_ a) <= addrTop x.

(** The records of a table hold pairwise different addresses. *)
Definition uniqueAddresses (rs : list (IP * string)) : Prop :=
  ForallOrdPairs (fun r1 r2 => Equal (fst r1) (fst r2) = false) rs.

(** The store calls of a command, in order. *)
Fixpoint storeEvents (tr : list CmdEvent) : list Event :=
  match tr with
  | [] => []
  | EvStore e :: tr' => e :: storeEvents tr'
  | _ :: tr' => storeEvents tr'
  end.

(** What a command printed, in order. *)
Fixpoint printed (tr : list CmdEvent) : list IPConfig :=
  match tr with
  | [] => []
  | EvPrint c :: tr' => c :: printed tr'
  | _ :: tr' => printed tr'
  end.

(** How often a command closed a store. *)
Fixpoint closes (tr : list CmdEvent) : nat :=
  match tr with
  | [] => O
  | EvClose :: tr' => S (closes tr')
  | _ :: tr' => closes tr'
  end.

(** How often a command opened a store. *)
Fixpoint opens (tr : list CmdEvent) : nat :=
  match tr with
  | [] => O
  | EvNew _ :: tr' => S (opens tr')
  | _ :: tr' => opens tr'
  end.





(** An environment for the commands over the in-memory store: the
    configuration of 10.0.0.0/30 whatever the input, a store that opens and
    closes without touching the table, and a [Print] that succeeds. *)
Definition loadConf30 (stdin : list byte) (envArgs : string) : result IPAMConfig :=
  Ok conf30.

Definition openInMemory (c : IPAMConfig) (s : MemStore) : option error * MemStore :=
  (None, s).

Definition closeInMemory (s : MemStore) : MemStore := s.

Definition printOk (r : IPConfig) : option error := None.

Definition argsFor (id : string) : CmdArgs :=
  {| ContainerID := id; CmdArgs_Args := ""; StdinData := [] |}.

(** * Facts *)

(** ** Bytes and slices *)

Lemma bytesEqual_eq (a b : list byte) : bytesEqual a b = true <-> a = b.
Proof.
  revert b; induction a as [|x a IH]; intros [|y b]; simpl;
    try (split; [discriminate | discriminate]); try tauto.
  rewrite andb_true_iff, IH. split.
  - intros [Hxy ->]. f_equal. now apply Byte.byte_dec_bl.
  - intros H; injection H as -> ->. split; [now apply Byte.byte_dec_lb | reflexivity].
Qed.

Lemma bytesEqual_refl (a : list byte) : bytesEqual a a = true.
Proof. now apply bytesEqual_eq. Qed.

Lemma bytesEqual_sym (a b : list byte) : bytesEqual a b = bytesEqual b a.
Proof.
  destruct (bytesEqual a b) eqn:E1, (bytesEqual b a) eqn:E2; try reflexivity.
  - apply bytesEqual_eq in E1; subst. rewrite bytesEqual_refl in E2. discriminate.
  - apply bytesEqual_eq in E2; subst. rewrite bytesEqual_refl in E1. discriminate.
Qed.

Lemma is_nil_true (ip : list byte) : is_nil ip = true <-> ip = [].
Proof. destruct ip; simpl; split; congruence. Qed.

Lemma is_nil_false (ip : list byte) : is_nil ip = false <-> ip <> [].
Proof. destruct ip; simpl; split; congruence. Qed.

Lemma is_nil_length (ip : list byte) : is_nil ip = Nat.eqb (length ip) 0.
Proof. now destruct ip. Qed.

Lemma Equal_sym (x y : IP) : Equal x y = Equal y x.
Proof.
  unfold Equal.
  rewrite (Nat.eqb_sym (length y) (length x)).
  destruct (Nat.eqb (length x) (length y)) eqn:El; [apply bytesEqual_sym|].
  destruct (Nat.eqb (length x) IPv4len) eqn:E4x, (Nat.eqb (length y) IPv6len) eqn:E6y,
           (Nat.eqb (length y) IPv4len) eqn:E4y, (Nat.eqb (length x) IPv6len) eqn:E6x;
    simpl; try reflexivity;
    try (rewrite (bytesEqual_sym (firstn 12 y)), (bytesEqual_sym x); reflexivity);
    try (rewrite (bytesEqual_sym (firstn 12 x)), (bytesEqual_sym y); reflexivity);
    apply Nat.eqb_eq in E4x, E4y; apply Nat.eqb_neq in El; congruence.
Qed.

Lemma Equal_refl (x : IP) : Equal x x = true.
Proof. unfold Equal. rewrite Nat.eqb_refl. apply bytesEqual_refl. Qed.

(** ** NextIP *)

Lemma length_be_encode (n : nat) (v : Z) : length (be_encode n v) = n.
Proof. unfold be_encode. now rewrite length_rev, length_le_split. Qed.

Lemma length_NextIP (ip : IP) : length (NextIP ip) = length ip.
Proof. apply length_be_encode. Qed.

Lemma is_nil_NextIP (ip : IP) : is_nil (NextIP ip) = is_nil ip.
Proof. now rewrite !is_nil_length, length_NextIP. Qed.

(** ** The address forms *)

Ltac list_of_length l H :=
  repeat (destruct l as [|? l]; simpl in H; try discriminate H);
  try (exfalso; simpl in H; lia).

Lemma v4InV6_test (ip : IP) :
  length ip = IPv6len ->
  (isZeros (firstn 10 ip) && Byte.eqb (nth 10 ip Byte.x00) Byte.xff
     && Byte.eqb (nth 11 ip Byte.x00) Byte.xff = true
   <-> firstn 12 ip = v4InV6Prefix).
Proof.
  intros H. unfold IPv6len in H. list_of_length ip H.
  clear H. unfold isZeros, v4InV6Prefix. simpl.
  rewrite !andb_true_iff. split.
  - intros [[(H0 & H1 & H2 & H3 & H4 & H5 & H6 & H7 & H8 & H9 & _) H10] H11].
    repeat match goal with
           | H : Byte.eqb _ _ = true |- _ => apply Byte.byte_dec_bl in H; subst
           end.
    reflexivity.
  - intros H; injection H as -> -> -> -> -> -> -> -> -> -> -> ->.
    repeat split; reflexivity.
Qed.

(** The three ways [To4] can go. *)
Lemma To4_cases (ip : IP) :
  (length ip = IPv4len /\ To4 ip = ip) \/
  (length ip = IPv6len /\ firstn 12 ip = v4InV6Prefix /\
   To4 ip = skipn 12 ip /\ length (To4 ip) = IPv4len) \/
  (length ip <> IPv4len /\ To4 ip = [] /\
   (length ip = IPv6len -> firstn 12 ip <> v4InV6Prefix)).
Proof.
  unfold To4.
  destruct (Nat.eqb (length ip) IPv4len) eqn:E4.
  - left. apply Nat.eqb_eq in E4. auto.
  - apply Nat.eqb_neq in E4. right.
    destruct (Nat.eqb (length ip) IPv6len) eqn:E6; cbn [andb].
    + apply Nat.eqb_eq in E6. pose proof (v4InV6_test ip E6) as Ht.
      destruct (isZeros (firstn 10 ip) && Byte.eqb (nth 10 ip Byte.x00) Byte.xff
                && Byte.eqb (nth 11 ip Byte.x00) Byte.xff).
      * left. repeat split; try tauto.
        -- apply firstn_all2. rewrite length_skipn, E6. unfold IPv6len. lia.
        -- rewrite length_firstn, length_skipn, E6. reflexivity.
      * right. repeat split; try assumption.
        intros _ Hp. apply Ht in Hp. discriminate.
    + right. apply Nat.eqb_neq in E6. repeat split; try assumption. tauto.
Qed.

Lemma v4or16_cases (ip : IP) :
  (length ip = IPv4len /\ v4or16 ip = ip) \/
  (length ip = IPv6len /\ firstn 12 ip = v4InV6Prefix /\
   v4or16 ip = skipn 12 ip /\ length (v4or16 ip) = IPv4len) \/
  (length ip = IPv6len /\ firstn 12 ip <> v4InV6Prefix /\ v4or16 ip = ip) \/
  (length ip <> IPv4len /\ length ip <> IPv6len /\ v4or16 ip = []).
Proof.
  unfold v4or16.
  destruct (To4_cases ip) as [[H4 E]|[(H6 & Hp & E & Hl)|(H4 & E & Hn)]]; rewrite E.
  - left. split; [assumption|].
    destruct ip; [discriminate H4 | reflexivity].
  - right; left. repeat split; try assumption.
    + rewrite <- E. destruct (To4 ip); [discriminate Hl | reflexivity].
    + rewrite <- E. destruct (To4 ip); [discriminate Hl | assumption].
  - right; right. simpl. unfold To16.
    apply Nat.eqb_neq in H4. rewrite H4.
    destruct (Nat.eqb (length ip) IPv6len) eqn:E6.
    + left. apply Nat.eqb_eq in E6. auto.
    + right. apply Nat.eqb_neq in E6, H4. auto.
Qed.

Lemma v4or16_nil (ip : IP) :
  v4or16 ip = [] <-> length ip <> IPv4len /\ length ip <> IPv6len.
Proof.
  destruct (v4or16_cases ip) as [[H E]|[(H & _ & _ & Hl)|[(H & _ & E)|(H4 & H6 & E)]]].
  - rewrite E. split.
    + intros ->. discriminate H.
    + intros [Hn _]. contradiction.
  - split.
    + intros E0. rewrite E0 in Hl. discriminate Hl.
    + intros [_ Hn]. contradiction.
  - rewrite E. split.
    + intros ->. discriminate H.
    + intros [_ Hn]. contradiction.
  - rewrite E. tauto.
Qed.

(** ** networkRange *)

Lemma networkRange_loop_spec (n : nat) :
  forall (i : nat) (ip : IP) (mask : IPMask) (acc : IP),
    networkRange_loop n i ip mask acc =
    acc ++ map (fun k => byte_or (nth k ip Byte.x00) (byte_not (nth k mask Byte.x00)))
               (seq i n).
Proof.
  induction n as [|n IH]; intros i ip mask acc; simpl.
  - now rewrite app_nil_r.
  - rewrite IH, <- app_assoc. reflexivity.
Qed.

Lemma zipWith_seq (f : byte -> byte -> byte) (a b : list byte) :
  length a = length b ->
  zipWith f a b =
  map (fun k => f (nth k a Byte.x00) (nth k b Byte.x00)) (seq 0 (length a)).
Proof.
  revert b; induction a as [|x a IH]; intros [|y b] H; simpl in *; try discriminate; trivial.
  f_equal. rewrite <- seq_shift, map_map. apply IH. congruence.
Qed.

Lemma length_zipWith (f : byte -> byte -> byte) (a b : list byte) :
  length a = length b -> length (zipWith f a b) = length a.
Proof.
  revert b; induction a as [|x a IH]; intros [|y b] H; simpl in *; try discriminate; trivial.
  f_equal. apply IH. congruence.
Qed.

Lemma nth_zipWith (f : byte -> byte -> byte) (a b : list byte) (i : nat) :
  length a = length b -> (i < length a)%nat ->
  nth i (zipWith f a b) Byte.x00 = f (nth i a Byte.x00) (nth i b Byte.x00).
Proof.
  revert b i; induction a as [|x a IH]; intros [|y b] i H Hi; simpl in *;
    try discriminate; try lia.
  destruct i; [reflexivity|]. apply IH; [congruence | lia].
Qed.

(** [networkRange] in closed form. *)
Lemma networkRange_eq (n : IPNet) :
  networkRange n =
  if is_nil (IPNet_IP n) then Err ErrMissingSubnet
  else if is_nil (v4or16 (IPNet_IP n)) then Err ErrNotV4NorV6
  else if negb (Nat.eqb (length (v4or16 (IPNet_IP n))) (length (IPNet_Mask n)))
  then Err ErrVersionMismatch
  else Ok (IPNet_IP n, broadcastAddress n).
Proof.
  unfold networkRange, broadcastAddress.
  destruct (is_nil (IPNet_IP n)); [reflexivity|].
  destruct (is_nil (v4or16 (IPNet_IP n))); [reflexivity|].
  destruct (Nat.eqb (length (v4or16 (IPNet_IP n))) (length (IPNet_Mask n))) eqn:E;
    [|reflexivity].
  apply Nat.eqb_eq in E. simpl.
  rewrite networkRange_loop_spec, zipWith_seq by assumption. reflexivity.
Qed.

Lemma networkRange_Ok (n : IPNet) (first last : IP) :
  networkRange n = Ok (first, last) ->
  first = IPNet_IP n /\ last = broadcastAddress n /\
  IPNet_IP n <> [] /\ v4or16 (IPNet_IP n) <> [] /\
  length (v4or16 (IPNet_IP n)) = length (IPNet_Mask n).
Proof.
  rewrite networkRange_eq.
  destruct (is_nil (IPNet_IP n)) eqn:E1; [discriminate|].
  destruct (is_nil (v4or16 (IPNet_IP n))) eqn:E2; [discriminate|].
  destruct (Nat.eqb (length (v4or16 (IPNet_IP n))) (length (IPNet_Mask n))) eqn:E3;
    [|discriminate].
  simpl. intros H; injection H as <- <-.
  apply is_nil_false in E1, E2. apply Nat.eqb_eq in E3. auto.
Qed.

Lemma testbit_byte_or_not (a m : byte) (j : Z) :
  0 <= j < 8 ->
  Z.testbit (byte.unsigned (byte_or a (byte_not m))) j =
  Z.testbit (byte.unsigned a) j || negb (Z.testbit (byte.unsigned m) j).
Proof.
  intros Hj. unfold byte_or, byte_not.
  rewrite !byte.unsigned_of_Z. unfold byte.wrap.
  rewrite Z.mod_pow2_bits_low, Z.lor_spec by lia.
  rewrite Z.mod_pow2_bits_low, Z.lnot_spec by lia.
  reflexivity.
Qed.

(** C6 (as amended).  For every subnet, [networkRange] fails exactly when
    the subnet has no address, or the address is neither four nor sixteen
    bytes long, or the address (cut to four bytes when it is an IPv4 or
    IPv4-in-IPv6 address) and the mask differ in byte width.  Otherwise it
    returns the subnet's address as given, and a last address as wide as the
    cut address whose every byte is the address byte OR-ed with the inverted
    mask byte, so that every host bit is set. *)
Theorem networkRange_characterised (n : IPNet) :
  let ip := v4or16 (IPNet_IP n) in
  ((exists e, networkRange n = Err e) <->
   IPNet_IP n = [] \/
   (length (IPNet_IP n) <> IPv4len /\ length (IPNet_IP n) <> IPv6len) \/
   length ip <> length (IPNet_Mask n)) /\
  (forall first last,
      networkRange n = Ok (first, last) ->
      first = IPNet_IP n /\
      length last = length ip /\
      (forall i, (i < length ip)%nat ->
         nth i last Byte.x00 =
         byte_or (nth i ip Byte.x00) (byte_not (nth i (IPNet_Mask n) Byte.x00))) /\
      (forall i j, (i < length ip)%nat -> 0 <= j < 8 ->
         Z.testbit (byte.unsigned (nth i (IPNet_Mask n) Byte.x00)) j = false ->
         Z.testbit (byte.unsigned (nth i last Byte.x00)) j = true)).
Proof.
  intros ip. split.
  - rewrite networkRange_eq. fold ip.
    destruct (is_nil (IPNet_IP n)) eqn:E1.
    { apply is_nil_true in E1. split; [auto | intros _; eauto]. }
    apply is_nil_false in E1.
    destruct (is_nil ip) eqn:E2.
    { apply is_nil_true in E2. split; [|intros _; eauto].
      intros _. right; left. now apply v4or16_nil. }
    apply is_nil_false in E2.
    destruct (Nat.eqb (length ip) (length (IPNet_Mask n))) eqn:E3; simpl.
    + apply Nat.eqb_eq in E3. split.
      * intros [e He]. discriminate He.
      * intros [H|[H|H]]; try contradiction.
        apply v4or16_nil in H. contradiction.
    + apply Nat.eqb_neq in E3. split; [auto | intros _; eauto].
  - intros first last H.
    apply networkRange_Ok in H. destruct H as (-> & -> & _ & _ & Hlen). fold ip in Hlen.
    unfold broadcastAddress. fold ip.
    assert (Hnth : forall i, (i < length ip)%nat ->
              nth i (zipWith (fun x m => byte_or x (byte_not m)) ip (IPNet_Mask n)) Byte.x00 =
              byte_or (nth i ip Byte.x00) (byte_not (nth i (IPNet_Mask n) Byte.x00))).
    { intros i Hi. now apply nth_zipWith. }
    repeat split.
    + now apply length_zipWith.
    + exact Hnth.
    + intros i j Hi Hj Hbit. rewrite Hnth by assumption.
      rewrite testbit_byte_or_not by assumption.
      rewrite Hbit. apply orb_true_r.
Qed.

(** The subnet 10.0.0.0/24 as the configuration loader hands it over, a
    sixteen-byte address with a four-byte mask. *)
Lemma networkRange_characterised_witness :
  networkRange (mkIPNet (ip4in6 10 0 0 0) (ip4 255 255 255 0)) =
    Ok (ip4in6 10 0 0 0, ip4 10 0 0 255) /\
  length (ip4 10 0 0 255) = 4%nat /\
  Z.testbit (byte.unsigned (nth 3 (ip4 10 0 0 255) Byte.x00)) 5 = true.
Proof.
  pose proof (proj2 (networkRange_characterised
                       (mkIPNet (ip4in6 10 0 0 0) (ip4 255 255 255 0)))
                    (ip4in6 10 0 0 0) (ip4 10 0 0 255) eq_refl) as (_ & Hl & _ & Hb).
  split; [reflexivity|]. split; [exact Hl|].
  apply (Hb 3%nat 5); [simpl; lia | lia | reflexivity].
Defined.

(** C6, counterexample.  The failure condition as worded (no address, or
    address and mask of different byte width) is not the code's:
    10.0.0.0 in its sixteen-byte form with a sixteen-byte mask has an
    address as wide as its mask and is refused; the same address with the
    four-byte mask 255.255.255.0 differs from it in width and is accepted;
    a five-byte address with a five-byte mask is refused. *)
Lemma networkRange_fails_otherwise_than_worded :
  (~ specNetworkRangeFails
       (mkIPNet (ip4in6 10 0 0 0) (v4InV6Prefix ++ ip4 255 255 255 0)) /\
   networkRange (mkIPNet (ip4in6 10 0 0 0) (v4InV6Prefix ++ ip4 255 255 255 0)) =
     Err ErrVersionMismatch) /\
  (specNetworkRangeFails (mkIPNet (ip4in6 10 0 0 0) (ip4 255 255 255 0)) /\
   networkRange (mkIPNet (ip4in6 10 0 0 0) (ip4 255 255 255 0)) =
     Ok (ip4in6 10 0 0 0, ip4 10 0 0 255)) /\
  (~ specNetworkRangeFails
       (mkIPNet (ip4 10 0 0 0 ++ [Byte.x00]) (ip4 255 255 255 0 ++ [Byte.x00])) /\
   networkRange (mkIPNet (ip4 10 0 0 0 ++ [Byte.x00]) (ip4 255 255 255 0 ++ [Byte.x00])) =
     Err ErrNotV4NorV6).
Proof.
  unfold specNetworkRangeFails. repeat split.
  - intros [H|H]; [discriminate H | apply H; reflexivity].
  - right. simpl. discriminate.
  - intros [H|H]; [discriminate H | apply H; reflexivity].
Qed.

(** ** The allocator over any store *)

Section AllocatorFacts.

Context {St : Type} {store : Store St}.

Lemma validateRangeIP_None (ip : IP) (n : IPNet) :
  validateRangeIP ip n = None <-> Contains n ip = true.
Proof. unfold validateRangeIP. destruct (Contains n ip); simpl; split; congruence. Qed.

Lemma validateRangeIP_Some (ip : IP) (n : IPNet) (e : error) :
  validateRangeIP ip n = Some e -> Contains n ip = false /\ e = ErrNotInNetwork ip n.
Proof. unfold validateRangeIP. destruct (Contains n ip); simpl; intros H; now inversion H. Qed.

Lemma subnetOf_Subnet (c : IPAMConfig) : subnetOf c = Subnet c.
Proof. unfold subnetOf. now destruct (Subnet c). Qed.

(** What a successful construction fixes. *)
Lemma NewIPAllocator_Ok (c : IPAMConfig) (s s' : St) (a : IPAllocator) (tr : list Event) :
  NewIPAllocator c s = (Ok a, s', tr) ->
  networkRange (Subnet c) = Ok (IPNet_IP (Subnet c), broadcastAddress (Subnet c)) /\
  start a = (if is_nil (RangeStart c) then NextIP (IPNet_IP (Subnet c)) else RangeStart c) /\
  end_ a = (if is_nil (RangeEnd c) then broadcastAddress (Subnet c) else NextIP (RangeEnd c)) /\
  conf a = c /\
  (RangeStart c <> [] -> Contains (Subnet c) (RangeStart c) = true) /\
  (RangeEnd c <> [] -> Contains (Subnet c) (RangeEnd c) = true).
Proof.
  unfold NewIPAllocator.
  destruct (networkRange (Subnet c)) as [[first last]|e] eqn:En; [|discriminate].
  destruct (networkRange_Ok _ _ _ En) as (-> & -> & _).
  destruct (is_nil (RangeStart c)) eqn:Es; simpl;
    [|destruct (validateRangeIP (RangeStart c) (Subnet c)) eqn:Evs; [discriminate|]];
    (destruct (is_nil (RangeEnd c)) eqn:Ee; simpl;
     [|destruct (validateRangeIP (RangeEnd c) (Subnet c)) eqn:Eve; [discriminate|]]);
    intros H; injection H as <- <- <-; simpl;
    repeat match goal with
           | H : is_nil _ = true |- _ => apply is_nil_true in H
           | H : validateRangeIP _ _ = None |- _ => apply validateRangeIP_None in H
           end;
    repeat split; auto; congruence.
Qed.

Lemma NewIPAllocator_pure (c : IPAMConfig) (s : St) :
  snd (fst (NewIPAllocator c s)) = s /\ snd (NewIPAllocator c s) = [].
Proof.
  unfold NewIPAllocator.
  destruct (networkRange (Subnet c)) as [[first last]|e]; [|auto].
  destruct (is_nil (RangeStart c)); simpl;
    [|destruct (validateRangeIP (RangeStart c) (Subnet c)); [auto|]];
    (destruct (is_nil (RangeEnd c)); simpl;
     [|destruct (validateRangeIP (RangeEnd c) (Subnet c))]); auto.
Qed.

End AllocatorFacts.

Section Construction.

Context {St : Type} {store : Store St}.

(** C7.  [NewIPAllocator] freezes [start] as NextIP of the subnet's first
    address, replaced as it is by [RangeStart] when given, and [end] as the
    subnet's broadcast address, replaced by NextIP of [RangeEnd] when
    given; it fails exactly when [networkRange] refuses the subnet or a
    given [RangeStart] or [RangeEnd] is not contained in the subnet; and
    it leaves the store as it was, with no store call. *)
Theorem NewIPAllocator_effective_range (c : IPAMConfig) (s : St) :
  snd (fst (NewIPAllocator c s)) = s /\
  snd (NewIPAllocator c s) = [] /\
  ((exists e, fst (fst (NewIPAllocator c s)) = Err e) <->
   (exists e, networkRange (Subnet c) = Err e) \/
   (RangeStart c <> [] /\ Contains (Subnet c) (RangeStart c) = false) \/
   (RangeEnd c <> [] /\ Contains (Subnet c) (RangeEnd c) = false)) /\
  (forall a, fst (fst (NewIPAllocator c s)) = Ok a ->
     exists first last,
       networkRange (Subnet c) = Ok (first, last) /\
       first = IPNet_IP (Subnet c) /\
       last = broadcastAddress (Subnet c) /\
       start a = (if is_nil (RangeStart c) then NextIP first else RangeStart c) /\
       end_ a = (if is_nil (RangeEnd c) then last else NextIP (RangeEnd c)) /\
       conf a = c).
Proof.
  destruct (NewIPAllocator_pure c s) as [Hs Ht].
  split; [exact Hs|]. split; [exact Ht|]. split.
  - unfold NewIPAllocator.
    destruct (networkRange (Subnet c)) as [[first last]|e] eqn:En.
    2:{ simpl. split; intros _; [left|]; eauto. }
    destruct (is_nil (RangeStart c)) eqn:Es; simpl.
    + apply is_nil_true in Es.
      destruct (is_nil (RangeEnd c)) eqn:Ee; simpl.
      * apply is_nil_true in Ee. split.
        -- intros [e He]. discriminate He.
        -- intros [[e He]|[[H _]|[H _]]]; [discriminate He | congruence | congruence].
      * apply is_nil_false in Ee.
        destruct (validateRangeIP (RangeEnd c) (Subnet c)) as [e|] eqn:Ev; simpl.
        -- apply validateRangeIP_Some in Ev. destruct Ev as [Ev _].
           split; [intros _; right; right; auto | intros _; eauto].
        -- apply validateRangeIP_None in Ev. split.
           ++ intros [e He]. discriminate He.
           ++ intros [[e He]|[[H _]|[_ H]]]; [discriminate He | congruence | congruence].
    + apply is_nil_false in Es.
      destruct (validateRangeIP (RangeStart c) (Subnet c)) as [e|] eqn:Ev; simpl.
      * apply validateRangeIP_Some in Ev. destruct Ev as [Ev _].
        split; [intros _; right; left; auto | intros _; eauto].
      * apply validateRangeIP_None in Ev.
        destruct (is_nil (RangeEnd c)) eqn:Ee; simpl.
        -- apply is_nil_true in Ee. split.
           ++ intros [e He]. discriminate He.
           ++ intros [[e He]|[[_ H]|[H _]]]; [discriminate He | congruence | congruence].
        -- apply is_nil_false in Ee.
           destruct (validateRangeIP (RangeEnd c) (Subnet c)) as [e|] eqn:Ev2; simpl.
           ++ apply validateRangeIP_Some in Ev2. destruct Ev2 as [Ev2 _].
              split; [intros _; right; right; auto | intros _; eauto].
           ++ apply validateRangeIP_None in Ev2. split.
              ** intros [e He]. discriminate He.
              ** intros [[e He]|[[_ H]|[_ H]]]; [discriminate He | congruence | congruence].
  - intros a Ha.
    destruct (NewIPAllocator c s) as [[r s'] tr] eqn:E. simpl in Ha. subst r.
    destruct (NewIPAllocator_Ok _ _ _ _ _ E) as (Hn & Hst & Hen & Hc & _).
    exists (IPNet_IP (Subnet c)), (broadcastAddress (Subnet c)).
    repeat split; assumption.
Qed.

End Construction.

(** The /24 with range .10 to .20: [start] is .10 as given, [end] is .21. *)
Lemma NewIPAllocator_effective_range_witness :
  exists a,
    fst (fst (NewIPAllocator conf24range emptyStore)) = Ok a /\
    start a = ip4 10 0 0 10 /\ end_ a = ip4 10 0 0 21.
Proof.
  exists (mkIPAllocator (ip4 10 0 0 10) (ip4 10 0 0 21) conf24range).
  split; [reflexivity|].
  destruct (proj2 (proj2 (proj2 (NewIPAllocator_effective_range conf24range emptyStore)))
              (mkIPAllocator (ip4 10 0 0 10) (ip4 10 0 0 21) conf24range) eq_refl)
    as (first & last & _ & _ & _ & Hs & He & _).
  split; [exact Hs | exact He].
Defined.

Section SearchRange.

Context {St : Type} {store : Store St}.

Lemma getSearchRange_eq (a : IPAllocator) (s : St) :
  getSearchRange a s =
  ((if startFromLastReservedIP a (fst (LastReservedIP s))
    then match fst (LastReservedIP s) with
         | Ok m => (nextIP a m, m)
         | Err _ => (start a, end_ a)
         end
    else (start a, end_ a)),
   snd (LastReservedIP s),
   match fst (LastReservedIP s) with
   | Ok _ => [EvLastReservedIP]
   | Err e => [EvLastReservedIP; EvLog e]
   end).
Proof.
  unfold getSearchRange. destruct (LastReservedIP s) as [[m|e] s1]; simpl.
  - destruct (negb (is_nil m)); [|reflexivity].
    destruct (validateRangeIP m (subnetOf (conf a))); reflexivity.
  - reflexivity.
Qed.


(** C8.  When [LastReservedIP] fails during [Get], the failure is logged
    and the request goes on: the range searched is [start] to [end], and
    [Get] returns what the search over that range returns. *)
Theorem Get_marker_unreadable (fuel : nat) (a : IPAllocator) (id : string)
        (s s1 : St) (e : error) :
  requestedIP (conf a) = [] ->
  LastReservedIP (Lock s) = (Err e, s1) ->
  getSearchRange a (Lock s) = ((start a, end_ a), s1, [EvLastReservedIP; EvLog e]) /\
  Get fuel a id s =
  match search fuel a (resolveGateway (conf a)) id (end_ a) (start a) s1 with
  | None => None
  | Some (r, s2, tr) =>
      Some (r, Unlock s2, EvLock :: ([EvLastReservedIP; EvLog e] ++ tr) ++ [EvUnlock])
  end.
Proof.
  intros Hreq Hm.
  assert (Hr : getSearchRange a (Lock s) =
               ((start a, end_ a), s1, [EvLastReservedIP; EvLog e])).
  { unfold getSearchRange. now rewrite Hm. }
  split; [exact Hr|].
  unfold Get, Get_locked. rewrite Hreq, Hr. simpl.
  destruct (search fuel a (resolveGateway (conf a)) id (end_ a) (start a) s1)
    as [[[r s2] tr]|]; reflexivity.
Qed.

(** [Get] with a requested address, in closed form. *)
Lemma Get_requested_eq (fuel : nat) (a : IPAllocator) (id : string) (s : St) :
  requestedIP (conf a) <> [] ->
  Get fuel a id s =
  let gw := resolveGateway (conf a) in
  let req := requestedIP (conf a) in
  if negb (is_nil gw) && Equal gw req
  then Some (Err ErrRequestedIsGateway, Unlock (Lock s), [EvLock; EvUnlock])
  else if negb (Contains (subnetOf (conf a)) req)
  then Some (Err (ErrNotInNetwork req (subnetOf (conf a))), Unlock (Lock s),
             [EvLock; EvUnlock])
  else Some (match fst (Reserve id req (Lock s)) with
             | Ok true => Ok (ipConfigFor (conf a) req gw)
             | Ok false => Err (ErrRequestedUnavailable req (Name (conf a)))
             | Err e => Err e
             end,
             Unlock (snd (Reserve id req (Lock s))),
             [EvLock; EvReserve id req; EvUnlock]).
Proof.
  intros Hreq. apply is_nil_false in Hreq.
  unfold Get, Get_locked. rewrite Hreq. simpl.
  destruct (negb (is_nil (resolveGateway (conf a)))
            && Equal (resolveGateway (conf a)) (requestedIP (conf a))); [reflexivity|].
  unfold validateRangeIP.
  destruct (Contains (subnetOf (conf a)) (requestedIP (conf a))); simpl; [|reflexivity].
  destruct (Reserve id (requestedIP (conf a)) (Lock s)) as [[[|]|e] s1]; reflexivity.
Qed.

End SearchRange.



(** With an unreadable marker the first [Get] in 10.0.0.0/30 still returns
    10.0.0.2. *)
Lemma Get_marker_unreadable_witness :
  exists s' tr,
    @Get MemStore unreadableMarkerStore 4 alloc30 "A" emptyStore =
    Some (Ok (ipConfigFor conf30 (ip4 10 0 0 2) (ip4 10 0 0 1)), s', tr).
Proof.
  destruct (@Get_marker_unreadable MemStore unreadableMarkerStore 4 alloc30 "A"
              emptyStore emptyStore (StoreError "read last_reserved_ip")
              eq_refl eq_refl) as [_ H].
  rewrite H. vm_compute. eexists. eexists. reflexivity.
Defined.

(** ** The search loop *)

Section Search.

Context {St : Type} {store : Store St}.

(** More fuel does not change a finished search. *)
Lemma search_fuel_mono (fuel : nat) :
  forall (k : nat) a gw id endIP cur (s : St) x,
    search fuel a gw id endIP cur s = Some x ->
    search (fuel + k) a gw id endIP cur s = Some x.
Proof.
  induction fuel as [|fuel IH]; intros k a gw id endIP cur s x; simpl; [discriminate|].
  destruct (Equal cur endIP); [trivial|].
  destruct (negb (is_nil gw) && Equal cur gw); [apply IH|].
  destruct (Reserve id cur s) as [[[|]|e] s1]; trivial.
  destruct (search fuel a gw id endIP (nextIP a cur) s1) as [[[r' s2] tr]|] eqn:E;
    [|discriminate].
  rewrite (IH k _ _ _ _ _ _ _ E). trivial.
Qed.

(** What holds of every address a search passes to [Reserve], given a
    property [P] of the first candidate that each step of the walk keeps:
    the address has [P], is not the end of the search and passed the
    gateway check; the search does nothing but reserve; and an address it
    returns is the last it reserved. *)
Lemma search_invariant (P : IP -> Prop) a gw id endIP :
  (forall c, P c -> Equal c endIP = false -> P (nextIP a c)) ->
  forall fuel cur (s s' : St) r tr,
    P cur ->
    search fuel a gw id endIP cur s = Some (r, s', tr) ->
    Forall (fun c => P c /\ Equal c endIP = false /\ notGateway gw c = true)
           (reserved tr) /\
    tr = map (EvReserve id) (reserved tr) /\
    (forall cfg, r = Ok cfg ->
       exists c, In c (reserved tr) /\ cfg = ipConfigFor (conf a) c gw).
Proof.
  intros Hstep. induction fuel as [|fuel IH]; intros cur s s' r tr Hcur; simpl;
    [discriminate|].
  destruct (Equal cur endIP) eqn:Eend.
  { intros H; injection H as <- <- <-. simpl. repeat split; [constructor|discriminate]. }
  destruct (negb (is_nil gw) && Equal cur gw) eqn:Egw.
  { apply IH. now apply Hstep. }
  assert (Hc : P cur /\ Equal cur endIP = false /\ notGateway gw cur = true).
  { unfold notGateway. rewrite Egw. auto. }
  destruct (Reserve id cur s) as [[[|]|e] s1].
  - intros H; injection H as <- <- <-. simpl. repeat split.
    + constructor; [exact Hc | constructor].
    + intros cfg H; injection H as <-. exists cur. auto.
  - destruct (search fuel a gw id endIP (nextIP a cur) s1) as [[[r' s2] tr']|] eqn:E;
      [|discriminate].
    intros H; injection H as <- <- <-.
    destruct (IH _ _ _ _ _ (Hstep _ Hcur Eend) E) as (HF & Htr & Hok).
    simpl. repeat split.
    + constructor; assumption.
    + now rewrite <- Htr.
    + intros cfg Hcfg. destruct (Hok cfg Hcfg) as (c & Hin & ->). exists c. auto.
  - intros H; injection H as <- <- <-. simpl. repeat split.
    + constructor; [exact Hc | constructor].
    + discriminate.
Qed.

Lemma reserved_app (tr1 tr2 : list Event) :
  reserved (tr1 ++ tr2) = reserved tr1 ++ reserved tr2.
Proof.
  induction tr1 as [|e tr1 IH]; simpl; [reflexivity|].
  destruct e; simpl; now rewrite IH.
Qed.

Lemma reserved_getSearchRange (a : IPAllocator) (s : St) :
  reserved (snd (getSearchRange a s)) = [].
Proof. rewrite getSearchRange_eq. simpl. now destruct (fst (LastReservedIP s)). Qed.

(** [Get] without a requested address, in closed form. *)
Lemma Get_search_eq (fuel : nat) (a : IPAllocator) (id : string) (s : St) :
  requestedIP (conf a) = [] ->
  Get fuel a id s =
  match search fuel a (resolveGateway (conf a)) id
               (snd (fst (fst (getSearchRange a (Lock s)))))
               (fst (fst (fst (getSearchRange a (Lock s)))))
               (snd (fst (getSearchRange a (Lock s)))) with
  | None => None
  | Some (r, s2, tr) =>
      Some (r, Unlock s2,
            EvLock :: (snd (getSearchRange a (Lock s)) ++ tr) ++ [EvUnlock])
  end.
Proof.
  intros Hreq. unfold Get, Get_locked. rewrite Hreq. simpl.
  destruct (getSearchRange a (Lock s)) as [[range s1] tr1]. simpl.
  destruct (search fuel a (resolveGateway (conf a)) id (snd range) (fst range) s1)
    as [[[r s2] tr]|]; reflexivity.
Qed.

Lemma resolveGateway_not_nil (c : IPAMConfig) :
  IPNet_IP (Subnet c) <> [] -> is_nil (resolveGateway c) = false.
Proof.
  intros H. unfold resolveGateway.
  destruct (is_nil (Gateway c)) eqn:E; [|exact E].
  rewrite is_nil_NextIP. now apply is_nil_false.
Qed.

(** C5.  For every configuration [NewIPAllocator] accepts and every store
    state, the address of a successful [Get] is not the gateway (compared
    with [net.IP.Equal]), the gateway being the configured one when set and
    NextIP of the subnet's address otherwise. *)
Theorem Get_never_gateway (c : IPAMConfig) (s0 s0' : St) (tr0 : list Event)
        (a : IPAllocator) (fuel : nat) (id : string) (s s' : St)
        (cfg : IPConfig) (tr : list Event) :
  NewIPAllocator c s0 = (Ok a, s0', tr0) ->
  Get fuel a id s = Some (Ok cfg, s', tr) ->
  resolveGateway c = (if is_nil (Gateway c) then NextIP (IPNet_IP (Subnet c)) else Gateway c) /\
  IPConfig_Gateway cfg = resolveGateway c /\
  Equal (IPNet_IP (IPConfig_IP cfg)) (resolveGateway c) = false.
Proof.
  intros Hnew Hget.
  destruct (NewIPAllocator_Ok _ _ _ _ _ Hnew) as (Hn & _ & _ & Hc & _).
  apply networkRange_Ok in Hn. destruct Hn as (_ & _ & Hip & _).
  pose proof (resolveGateway_not_nil c Hip) as Hgw.
  split; [reflexivity|].
  destruct (is_nil (requestedIP (conf a))) eqn:Ereq.
  - apply is_nil_true in Ereq. rewrite (Get_search_eq _ _ _ _ Ereq) in Hget.
    destruct (search fuel a (resolveGateway (conf a)) id
                (snd (fst (fst (getSearchRange a (Lock s)))))
                (fst (fst (fst (getSearchRange a (Lock s)))))
                (snd (fst (getSearchRange a (Lock s))))) as [[[r s2] tr2]|] eqn:E;
      [|discriminate].
    injection Hget as -> _ _.
    destruct (search_invariant (fun _ => True) _ _ _ _ (fun _ _ _ => I)
                _ _ _ _ _ _ I E) as (HF & _ & Hok).
    destruct (Hok cfg eq_refl) as (cur & Hin & ->).
    rewrite Forall_forall in HF. destruct (HF cur Hin) as (_ & _ & Hng).
    rewrite Hc in *. simpl. split; [reflexivity|].
    unfold notGateway in Hng. rewrite Hgw in Hng. simpl in Hng.
    now apply negb_true_iff in Hng.
  - apply is_nil_false in Ereq. rewrite (Get_requested_eq _ _ _ _ Ereq) in Hget.
    rewrite Hc in *. cbv zeta in Hget. rewrite Hgw in Hget. simpl in Hget.
    destruct (Equal (resolveGateway c) (requestedIP c)) eqn:Eg; [discriminate|].
    destruct (Contains (subnetOf c) (requestedIP c)); simpl in Hget; [|discriminate].
    destruct (fst (Reserve id (requestedIP c) (Lock s))) as [[|]|e]; try discriminate.
    injection Hget as <- _ _. simpl. split; [reflexivity|].
    now rewrite Equal_sym.
Qed.

End Search.

(** The first [Get] in 10.0.0.0/30 returns 10.0.0.2, not the gateway
    10.0.0.1. *)
Lemma Get_never_gateway_witness :
  NewIPAllocator conf30 emptyStore = (Ok alloc30, emptyStore, []) /\
  Get 4 alloc30 "A" emptyStore =
    Some (Ok (ipConfigFor conf30 (ip4 10 0 0 2) (ip4 10 0 0 1)),
          storeWith [(ip4 10 0 0 2, "A"%string)] (ip4 10 0 0 2),
          [EvLock; EvLastReservedIP; EvReserve "A" (ip4 10 0 0 2); EvUnlock]) /\
  Equal (ip4 10 0 0 2) (ip4 10 0 0 1) = false.
Proof.
  split; [reflexivity|]. split; [reflexivity|].
  exact (proj2 (proj2
    (Get_never_gateway conf30 emptyStore emptyStore [] alloc30 4 "A"%string emptyStore
       (storeWith [(ip4 10 0 0 2, "A"%string)] (ip4 10 0 0 2))
       (ipConfigFor conf30 (ip4 10 0 0 2) (ip4 10 0 0 1))
       [EvLock; EvLastReservedIP; EvReserve "A"%string (ip4 10 0 0 2); EvUnlock]
       eq_refl eq_refl))).
Defined.

(** ** The in-memory store *)

Lemma filter_idem {A : Type} (f : A -> bool) (l : list A) :
  filter f (filter f l) = filter f l.
Proof.
  induction l as [|x l IH]; simpl; [reflexivity|].
  destruct (f x) eqn:E; simpl; [rewrite E; f_equal|]; exact IH.
Qed.

Lemma mem_Reserve_owned (id : string) (ip : IP) (s : MemStore) :
  owned ip (records s) = true -> mem_Reserve id ip s = (Ok false, s).
Proof. intros H. unfold mem_Reserve. now rewrite H. Qed.

(** C4.  With a requested address [Get] never searches (it does not read
    the marker): it fails when the address equals the resolved gateway, fails
    when the address is not inside the subnet, and otherwise calls [Reserve]
    exactly once, on the requested address, returning that address exactly
    when [Reserve] reports success and failing with the error that names the
    subnet when [Reserve] reports the address taken.  [Get] itself applies
    nothing to the store but that call between [Lock] and [Unlock], and over
    the in-memory store an address already owned leaves the store as it
    was. *)
Theorem Get_requested_all_or_nothing :
  (forall (St : Type) (store : Store St) (fuel : nat) (a : IPAllocator)
          (id : string) (s : St),
      requestedIP (conf a) <> [] ->
      let gw := resolveGateway (conf a) in
      let req := requestedIP (conf a) in
      exists r s' tr,
        Get fuel a id s = Some (r, s', tr) /\
        markerReads tr = 0%nat /\
        (negb (is_nil gw) && Equal gw req = true ->
         r = Err ErrRequestedIsGateway /\ reserved tr = [] /\ s' = Unlock (Lock s)) /\
        (negb (is_nil gw) && Equal gw req = false ->
         Contains (subnetOf (conf a)) req = false ->
         r = Err (ErrNotInNetwork req (subnetOf (conf a))) /\
         reserved tr = [] /\ s' = Unlock (Lock s)) /\
        (negb (is_nil gw) && Equal gw req = false ->
         Contains (subnetOf (conf a)) req = true ->
         tr = [EvLock; EvReserve id req; EvUnlock] /\
         s' = Unlock (snd (Reserve id req (Lock s))) /\
         (r = Ok (ipConfigFor (conf a) req gw) <->
          fst (Reserve id req (Lock s)) = Ok true) /\
         (fst (Reserve id req (Lock s)) = Ok false ->
          r = Err (ErrRequestedUnavailable req (Name (conf a)))) /\
         (forall e, fst (Reserve id req (Lock s)) = Err e -> r = Err e))) /\
  (forall (fuel : nat) (a : IPAllocator) (id : string) (s : MemStore),
      requestedIP (conf a) <> [] ->
      negb (is_nil (resolveGateway (conf a)))
        && Equal (resolveGateway (conf a)) (requestedIP (conf a)) = false ->
      Contains (subnetOf (conf a)) (requestedIP (conf a)) = true ->
      owned (requestedIP (conf a)) (records s) = true ->
      Get fuel a id s =
      Some (Err (ErrRequestedUnavailable (requestedIP (conf a)) (Name (conf a))),
            s, [EvLock; EvReserve id (requestedIP (conf a)); EvUnlock])).
Proof.
  split.
  - intros St store fuel a id s Hreq gw req.
    rewrite (Get_requested_eq fuel a id s Hreq). cbv zeta. fold gw req.
    destruct (negb (is_nil gw) && Equal gw req) eqn:Eg.
    + do 3 eexists. split; [reflexivity|]. split; [reflexivity|].
      repeat split; try reflexivity; discriminate.
    + destruct (Contains (subnetOf (conf a)) req) eqn:Ec; simpl.
      * do 3 eexists. split; [reflexivity|]. split; [reflexivity|].
        split; [discriminate|]. split; [discriminate|].
        intros _ _. split; [reflexivity|]. split; [reflexivity|].
        destruct (fst (Reserve id req (Lock s))) as [[|]|e]; repeat split;
          try discriminate; try reflexivity; try congruence.
      * do 3 eexists. split; [reflexivity|]. split; [reflexivity|].
        split; [discriminate|]. split; [|discriminate].
        intros _ _. repeat split.
  - intros fuel a id s Hreq Hg Hc Ho.
    rewrite (Get_requested_eq fuel a id s Hreq). cbv zeta.
    rewrite Hg, Hc. simpl. now rewrite (mem_Reserve_owned _ _ _ Ho).
Qed.

(** A request for 10.0.0.2 while it is held fails and leaves the store as
    it was. *)
Lemma Get_requested_all_or_nothing_witness :
  Get 0 (alloc30requesting (ip4 10 0 0 2)) "B"
      (storeWith [(ip4 10 0 0 2, "A"%string)] (ip4 10 0 0 2)) =
  Some (Err (ErrRequestedUnavailable (ip4 10 0 0 2) "net30"),
        storeWith [(ip4 10 0 0 2, "A"%string)] (ip4 10 0 0 2),
        [EvLock; EvReserve "B" (ip4 10 0 0 2); EvUnlock]).
Proof.
  apply (proj2 Get_requested_all_or_nothing 0%nat (alloc30requesting (ip4 10 0 0 2))
           "B"%string (storeWith [(ip4 10 0 0 2, "A"%string)] (ip4 10 0 0 2)));
    [discriminate | reflexivity | reflexivity | reflexivity].
Defined.

(** C9.  [Release] delegates to [ReleaseByID] under the lock; over the
    in-memory store it returns no error whether or not a record matches,
    leaves exactly the records of other owners, and a second [Release] of the
    same owner returns no error and leaves the store unchanged. *)
Theorem Release_idempotent :
  (forall (St : Type) (store : Store St) (a : IPAllocator) (id : string) (s : St),
      Release a id s =
      (fst (ReleaseByID id (Lock s)), Unlock (snd (ReleaseByID id (Lock s))),
       [EvLock; EvReleaseByID id; EvUnlock])) /\
  (forall (a : IPAllocator) (id : string) (s : MemStore),
      fst (fst (Release a id s)) = None /\
      (forall r, In r (records (snd (fst (Release a id s)))) <->
                 In r (records s) /\ snd r <> id) /\
      marker (snd (fst (Release a id s))) = marker s /\
      fst (fst (Release a id (snd (fst (Release a id s))))) = None /\
      snd (fst (Release a id (snd (fst (Release a id s))))) = snd (fst (Release a id s))).
Proof.
  split.
  - intros St store a id s. unfold Release.
    now destruct (ReleaseByID id (Lock s)).
  - intros a id s. unfold Release. simpl.
    split; [reflexivity|]. split; [|split; [reflexivity|split; [reflexivity|]]].
    + intros r. rewrite filter_In, negb_true_iff, String.eqb_neq. tauto.
    + now rewrite filter_idem.
Qed.

(** C1, the scenario on the code.  In 10.0.0.0/30 with an empty store the
    first [Get] returns 10.0.0.2, skipping the gateway 10.0.0.1.  The second
    [Get], for another owner and with 10.0.0.2 held, does not fail: seeded
    from the marker 10.0.0.2 it offers 10.0.0.3, the broadcast address and
    the allocator's own [end], to [Reserve] and returns it.  From the same
    records the search that is not seeded (the marker being unreadable)
    stops before [end] and reports that no address is available. *)
Theorem net30_second_Get_takes_broadcast (fuel : nat) :
  NewIPAllocator conf30 emptyStore = (Ok alloc30, emptyStore, []) /\
  Get (2 + fuel) alloc30 "A" emptyStore =
    Some (Ok (ipConfigFor conf30 (ip4 10 0 0 2) (ip4 10 0 0 1)),
          storeWith [(ip4 10 0 0 2, "A"%string)] (ip4 10 0 0 2),
          [EvLock; EvLastReservedIP; EvReserve "A" (ip4 10 0 0 2); EvUnlock]) /\
  Get (1 + fuel) alloc30 "B" (storeWith [(ip4 10 0 0 2, "A"%string)] (ip4 10 0 0 2)) =
    Some (Ok (ipConfigFor conf30 (ip4 10 0 0 3) (ip4 10 0 0 1)),
          storeWith [(ip4 10 0 0 2, "A"%string); (ip4 10 0 0 3, "B"%string)]
                    (ip4 10 0 0 3),
          [EvLock; EvLastReservedIP; EvReserve "B" (ip4 10 0 0 3); EvUnlock]) /\
  broadcastAddress (Subnet conf30) = ip4 10 0 0 3 /\
  end_ alloc30 = ip4 10 0 0 3 /\
  @Get MemStore unreadableMarkerStore (3 + fuel) alloc30 "B"
       (storeWith [(ip4 10 0 0 2, "A"%string)] (ip4 10 0 0 2)) =
    Some (Err (ErrNoAddresses "net30"),
          storeWith [(ip4 10 0 0 2, "A"%string)] (ip4 10 0 0 2),
          [EvLock; EvLastReservedIP; EvLog (StoreError "read last_reserved_ip");
           EvReserve "B" (ip4 10 0 0 2); EvUnlock]).
Proof. repeat split. Qed.

(** ** Addresses as numbers *)

Lemma le_combine_cons (b : byte) (t : list byte) :
  le_combine (b :: t) = byte.unsigned b + 256 * le_combine t.
Proof.
  change (le_combine (b :: t))
    with (Z.lor (byte.unsigned b) (Z.shiftl (le_combine t) 8)).
  pose proof (byte.unsigned_range b) as Hb.
  rewrite Z.shiftl_mul_pow2 by lia. change (2 ^ 8) with 256.
  rewrite (Z.mul_comm (le_combine t)).
  rewrite <- Z.lxor_lor, <- Z.add_nocarry_lxor; trivial;
    replace (256 * le_combine t) with (Z.shiftl (le_combine t) 8)
      by (rewrite Z.shiftl_mul_pow2; lia);
    rewrite <- (Z.mod_small (byte.unsigned b) (2 ^ 8)) by lia;
    rewrite <- Z.land_ones by lia;
    apply Z.bits_inj'; intros n Hn;
    rewrite !Z.land_spec, Z.bits_0;
    (destruct (Z.ltb_spec n 8);
     [rewrite Z.shiftl_spec_low by lia; apply andb_false_r
     |rewrite Z.ones_spec_high by lia; rewrite andb_false_r; reflexivity]).
Qed.

Lemma le_combine_app_add (x y : list byte) :
  le_combine (x ++ y) = le_combine x + 2 ^ (8 * Z.of_nat (length x)) * le_combine y.
Proof.
  induction x as [|b x IH].
  - cbn [app length]. change (le_combine []) with 0.
    change (8 * Z.of_nat 0) with 0. rewrite Z.pow_0_r. lia.
  - rewrite <- app_comm_cons, !le_combine_cons, IH.
    change (length (b :: x)) with (S (length x)).
    rewrite Nat2Z.inj_succ.
    replace (8 * Z.succ (Z.of_nat (length x))) with (8 + 8 * Z.of_nat (length x)) by lia.
    rewrite Z.pow_add_r by lia. change (2 ^ 8) with 256. ring.
Qed.

Lemma be_decode_app (x y : list byte) :
  be_decode (x ++ y) = be_decode x * 2 ^ (8 * Z.of_nat (length y)) + be_decode y.
Proof.
  unfold be_decode. rewrite rev_app_distr, le_combine_app_add, length_rev. ring.
Qed.

Lemma be_decode_cons (b : byte) (t : list byte) :
  be_decode (b :: t) = byte.unsigned b * 2 ^ (8 * Z.of_nat (length t)) + be_decode t.
Proof.
  change (b :: t) with ([b] ++ t). rewrite be_decode_app. f_equal. f_equal.
  unfold be_decode. simpl. apply le_combine_1.
Qed.

Lemma be_decode_bound (l : list byte) :
  0 <= be_decode l < 2 ^ (8 * Z.of_nat (length l)).
Proof.
  unfold be_decode. rewrite <- (length_rev l). apply le_combine_bound.
Qed.

Lemma be_decode_inj (x y : list byte) :
  length x = length y -> be_decode x = be_decode y -> x = y.
Proof.
  intros Hl H. unfold be_decode in H.
  apply le_combine_inj in H; [|now rewrite !length_rev].
  now apply rev_inj.
Qed.

Lemma be_decode_encode (n : nat) (v : Z) :
  be_decode (be_encode n v) = v mod 2 ^ (8 * Z.of_nat n).
Proof.
  unfold be_decode, be_encode. rewrite rev_involutive, le_combine_split.
  f_equal. f_equal. lia.
Qed.

Lemma be_decode_NextIP (ip : IP) :
  be_decode ip + 1 < 2 ^ (8 * Z.of_nat (length ip)) ->
  be_decode (NextIP ip) = be_decode ip + 1.
Proof.
  intros H. unfold NextIP. rewrite be_decode_encode.
  pose proof (be_decode_bound ip). apply Z.mod_small. lia.
Qed.

Lemma addr_v4 (ip : IP) : length ip = IPv4len -> addr ip = v4base + be_decode ip.
Proof.
  intros H. unfold addr, To16. rewrite H. simpl Nat.eqb. cbv iota.
  rewrite be_decode_app, H. reflexivity.
Qed.

Lemma addr_v6 (ip : IP) : length ip = IPv6len -> addr ip = be_decode ip.
Proof. intros H. unfold addr, To16. rewrite H. reflexivity. Qed.

Lemma length_To16 (ip : IP) : validLen ip -> length (To16 ip) = IPv6len.
Proof.
  intros [H|H]; unfold To16; rewrite H; simpl Nat.eqb; cbv iota.
  - rewrite length_app, H. reflexivity.
  - exact H.
Qed.

Lemma Equal_To16 (x y : IP) :
  validLen x -> validLen y -> (Equal x y = true <-> To16 x = To16 y).
Proof.
  intros [Hx|Hx] [Hy|Hy]; unfold Equal, To16; rewrite Hx, Hy; simpl Nat.eqb; cbv iota;
    cbn [andb].
  - rewrite bytesEqual_eq. split; [now intros -> | apply app_inv_head].
  - rewrite andb_true_iff, !bytesEqual_eq. split.
    + intros [H1 H2]. rewrite <- (firstn_skipn 12 y), H1, <- H2. reflexivity.
    + intros <-. split.
      * now rewrite firstn_app, firstn_all2; [rewrite Nat.sub_diag, firstn_O, app_nil_r|].
      * now rewrite skipn_app, skipn_all2; [rewrite Nat.sub_diag|].
  - rewrite andb_true_iff, !bytesEqual_eq. split.
    + intros [H1 H2]. rewrite <- (firstn_skipn 12 x), H1, H2. reflexivity.
    + intros ->. split.
      * now rewrite firstn_app, firstn_all2; [rewrite Nat.sub_diag, firstn_O, app_nil_r|].
      * now rewrite skipn_app, skipn_all2; [rewrite Nat.sub_diag|].
  - apply bytesEqual_eq.
Qed.

(** [net.IP.Equal] is equality of the numbers. *)
Lemma Equal_addr (x y : IP) :
  validLen x -> validLen y -> (Equal x y = true <-> addr x = addr y).
Proof.
  intros Hx Hy. rewrite (Equal_To16 x y Hx Hy). unfold addr. split.
  - now intros ->.
  - apply be_decode_inj. now rewrite !length_To16.
Qed.

Lemma Equal_false_addr (x y : IP) :
  validLen x -> validLen y -> (Equal x y = false <-> addr x <> addr y).
Proof.
  intros Hx Hy. rewrite <- (Equal_addr x y Hx Hy).
  destruct (Equal x y); split; congruence.
Qed.

Lemma validLen_NextIP (ip : IP) : validLen ip -> validLen (NextIP ip).
Proof. unfold validLen. now rewrite length_NextIP. Qed.

Lemma addr_NextIP (ip : IP) :
  validLen ip -> addr ip < addrTop ip -> addr (NextIP ip) = addr ip + 1.
Proof.
  unfold addrTop. intros [H|H] Ht; rewrite H in Ht.
  - change (Nat.eqb IPv4len IPv4len) with true in Ht. cbv iota in Ht.
    rewrite !addr_v4 in * by (now rewrite ?length_NextIP).
    rewrite be_decode_NextIP; [lia|]. rewrite H.
    change (2 ^ (8 * Z.of_nat IPv4len)) with (2 ^ 32). lia.
  - change (Nat.eqb IPv6len IPv4len) with false in Ht. cbv iota in Ht.
    rewrite !addr_v6 in * by (now rewrite ?length_NextIP).
    rewrite be_decode_NextIP; [lia|]. rewrite H.
    change (2 ^ (8 * Z.of_nat IPv6len)) with (2 ^ 128). lia.
Qed.

Lemma be_decode_v4InV6Prefix : be_decode v4InV6Prefix = 65535.
Proof. reflexivity. Qed.

(** An IPv4 address, in either form, is a number of the IPv4 block. *)
Lemma To4_addr_bounds (e : IP) :
  To4 e <> [] ->
  validLen e /\ addr e = v4base + be_decode (To4 e) /\ length (To4 e) = IPv4len /\
  v4base <= addr e <= v4base + 2 ^ 32 - 1.
Proof.
  intros Hn.
  destruct (To4_cases e) as [[H E]|[(H & Hp & E & Hl)|(_ & E & _)]]; [| |contradiction].
  - rewrite E. pose proof (be_decode_bound e) as Hb. rewrite H in Hb.
    change (2 ^ (8 * Z.of_nat IPv4len)) with (2 ^ 32) in Hb.
    rewrite (addr_v4 e H). repeat split; try lia; try assumption. now left.
  - pose proof (be_decode_bound (To4 e)) as Hb. rewrite Hl in Hb.
    change (2 ^ (8 * Z.of_nat IPv4len)) with (2 ^ 32) in Hb.
    assert (Ha : addr e = v4base + be_decode (To4 e)).
    { rewrite (addr_v6 e H). rewrite <- (firstn_skipn 12 e) at 1.
      rewrite be_decode_app, Hp, <- E, Hl, be_decode_v4InV6Prefix. reflexivity. }
    rewrite Ha. repeat split; try lia; try assumption. now right.
Qed.

Lemma addrTop_NextIP (ip : IP) : addrTop (NextIP ip) = addrTop ip.
Proof. unfold addrTop. now rewrite length_NextIP. Qed.

Lemma orderedRange_top (a : IPAllocator) :
  orderedRange a -> addr (end_ a) <= addrTop (start a).
Proof.
  intros (Hs & He & _ & H4). unfold addrTop.
  destruct (Nat.eqb (length (start a)) IPv4len) eqn:E.
  - apply Nat.eqb_eq in E. destruct (To4_addr_bounds _ (H4 E)) as (_ & _ & _ & Hb). lia.
  - unfold addr. pose proof (be_decode_bound (To16 (end_ a))) as Hb.
    rewrite (length_To16 _ He) in Hb.
    change (2 ^ (8 * Z.of_nat IPv6len)) with (2 ^ 128) in Hb. lia.
Qed.

(** ** Walking an ordered range *)

Lemma Forall_firstn_filter {A : Type} (P : A -> Prop) (f : A -> bool) (l : list A) :
  Forall P l -> forall k, Forall P (firstn k (filter f l)).
Proof.
  induction 1 as [|x l Hx Hl IH]; intros k; simpl.
  - rewrite firstn_nil. constructor.
  - destruct (f x); [|apply IH].
    destruct k; simpl; constructor; [assumption | apply IH].
Qed.


Section Walk.

Variable a : IPAllocator.

(** From [cur], [n] steps below [end], the walk lists the addresses
    numbered [addr cur], [addr cur + 1], ... below [addr end]; none equals
    [end], so [nextIP] never wraps on them. *)
Lemma walk_interval (n : nat) :
  forall cur,
    validLen cur -> validLen (end_ a) ->
    addr cur + Z.of_nat n = addr (end_ a) ->
    addr (end_ a) <= addrTop cur ->
    map addr (walk n cur) = map (fun i => addr cur + Z.of_nat i) (seq 0 n) /\
    Forall (fun c => validLen c /\ addr cur <= addr c < addr (end_ a) /\
                     Equal c (end_ a) = false /\ nextIP a c = NextIP c)
           (walk n cur) /\
    StronglySorted (fun x y => addr x < addr y) (walk n cur).
Proof.
  induction n as [|n IH]; intros cur Hc He Hn Ht.
  - simpl. repeat split; constructor.
  - assert (Hlt : addr cur < addr (end_ a)) by lia.
    assert (Hne : Equal cur (end_ a) = false)
      by (apply Equal_false_addr; trivial; lia).
    assert (Hnx : addr (NextIP cur) = addr cur + 1)
      by (apply addr_NextIP; trivial; lia).
    destruct (IH (NextIP cur)) as (Hm & HF & HS);
      [now apply validLen_NextIP | assumption | lia | now rewrite addrTop_NextIP |].
    cbn [walk]. repeat split.
    + cbn [map seq]. f_equal; [lia|].
      rewrite Hm, <- seq_shift, map_map.
      apply map_ext. intros i. lia.
    + constructor.
      * unfold nextIP. rewrite Hne. repeat split; trivial; lia.
      * eapply Forall_impl; [|exact HF]. cbv beta.
        intros c (H1 & H2 & H3 & H4). repeat split; trivial; lia.
    + constructor; [exact HS|].
      eapply Forall_impl; [|exact HF]. cbv beta. intros c (_ & H2 & _). lia.
Qed.

Context {St : Type} {store : Store St}.

(** A search towards [end] from [n] steps below it ends within [n + 1]
    iterations, having offered to [Reserve] a first part of the addresses
    of the walk that pass the gateway check, in order. *)
Lemma search_interval (gw : IP) (id : string) (n : nat) :
  forall fuel cur (s : St),
    validLen cur -> validLen (end_ a) ->
    addr cur + Z.of_nat n = addr (end_ a) ->
    addr (end_ a) <= addrTop cur ->
    (n < fuel)%nat ->
    exists r s' tr,
      search fuel a gw id (end_ a) cur s = Some (r, s', tr) /\
      exists k, reserved tr = firstn k (filter (notGateway gw) (walk n cur)).
Proof.
  induction n as [|n IH]; intros fuel cur s Hc He Hn Ht Hf;
    (destruct fuel as [|fuel]; [lia|]); cbn [search].
  - assert (Heq : Equal cur (end_ a) = true) by (apply Equal_addr; trivial; lia).
    rewrite Heq. do 3 eexists. split; [reflexivity|]. exists 0%nat. reflexivity.
  - assert (Hne : Equal cur (end_ a) = false)
      by (apply Equal_false_addr; trivial; lia).
    assert (Hnx : addr (NextIP cur) = addr cur + 1)
      by (apply addr_NextIP; trivial; lia).
    assert (Hnext : nextIP a cur = NextIP cur) by (unfold nextIP; now rewrite Hne).
    rewrite Hne, Hnext. cbn [walk filter]. unfold notGateway at 1.
    destruct (negb (is_nil gw) && Equal cur gw) eqn:Eg; cbn [negb].
    + apply IH; trivial;
        [now apply validLen_NextIP | lia | now rewrite addrTop_NextIP | lia].
    + destruct (Reserve id cur s) as [[[|]|e] s1].
      * do 3 eexists. split; [reflexivity|]. exists 1%nat. reflexivity.
      * destruct (IH fuel (NextIP cur) s1) as (r & s' & tr & Hs & k & Hk);
          [now apply validLen_NextIP | assumption | lia
          | now rewrite addrTop_NextIP | lia |].
        rewrite Hs. do 3 eexists. split; [reflexivity|].
        exists (S k). simpl. now rewrite Hk.
      * do 3 eexists. split; [reflexivity|]. exists 1%nat. reflexivity.
Qed.

End Walk.

Section Unseeded.

Context {St : Type} {store : Store St}.

Lemma reserved_Get_trace (tr1 tr2 : list Event) :
  reserved tr1 = [] ->
  reserved (EvLock :: (tr1 ++ tr2) ++ [EvUnlock]) = reserved tr2.
Proof.
  intros H. cbn [reserved]. rewrite !reserved_app, H. simpl. apply app_nil_r.
Qed.



End Unseeded.



(** ** Containment in a subnet, as numbers *)

Lemma testbit_unsigned_high (b : byte) (j : Z) :
  8 <= j -> Z.testbit (byte.unsigned b) j = false.
Proof.
  intros Hj. rewrite <- (byte.wrap_unsigned b). unfold byte.wrap.
  apply Z.mod_pow2_bits_high. lia.
Qed.

Lemma testbit_byte_and (x k : byte) (j : Z) :
  0 <= j < 8 ->
  Z.testbit (byte.unsigned (byte.and x k)) j =
  Z.testbit (byte.unsigned x) j && Z.testbit (byte.unsigned k) j.
Proof.
  intros Hj. unfold byte.and. rewrite byte.unsigned_of_Z. unfold byte.wrap.
  rewrite Z.mod_pow2_bits_low, Z.land_spec by lia. reflexivity.
Qed.

(** A byte whose bits are among those of another is not the greater. *)
Lemma unsigned_le_of_bits (x y : byte) :
  (forall j, 0 <= j < 8 ->
     Z.testbit (byte.unsigned x) j = true -> Z.testbit (byte.unsigned y) j = true) ->
  byte.unsigned x <= byte.unsigned y.
Proof.
  intros H. pose proof (byte.unsigned_range y) as Hy.
  apply (Z.ldiff_le (byte.unsigned x) (byte.unsigned y)); [lia|].
  apply Z.bits_inj'. intros j Hj.
  rewrite Z.ldiff_spec, Z.bits_0.
  destruct (Z.ltb_spec j 8) as [Hlt|Hge].
  - destruct (Z.testbit (byte.unsigned x) j) eqn:Ex; [|reflexivity].
    rewrite (H j) by (trivial; lia). reflexivity.
  - now rewrite testbit_unsigned_high.
Qed.

Lemma masked_byte_bounds (n k x : byte) :
  byte.and n k = byte.and x k ->
  byte.unsigned (byte.and n k) <= byte.unsigned x <=
  byte.unsigned (byte_or n (byte_not k)).
Proof.
  intros H. split; apply unsigned_le_of_bits; intros j Hj.
  - rewrite H, testbit_byte_and by assumption.
    intros Hb. apply andb_true_iff in Hb. tauto.
  - intros Hx. rewrite testbit_byte_or_not by assumption.
    destruct (Z.testbit (byte.unsigned k) j) eqn:Ek; [|apply orb_true_r].
    assert (Hb : Z.testbit (byte.unsigned (byte.and n k)) j = true)
      by (rewrite H, testbit_byte_and, Hx, Ek by assumption; reflexivity).
    rewrite testbit_byte_and, Ek, andb_true_r in Hb by assumption.
    now rewrite Hb.
Qed.

Lemma be_decode_le_pointwise (x y : list byte) :
  Forall2 (fun p q => byte.unsigned p <= byte.unsigned q) x y ->
  be_decode x <= be_decode y.
Proof.
  induction 1 as [|p q x y Hpq HF IH]; [lia|].
  rewrite !be_decode_cons, (Forall2_length HF).
  assert (0 <= 2 ^ (8 * Z.of_nat (length y))) by (apply Z.pow_nonneg; lia).
  nia.
Qed.

Lemma maskedEqual_bounds (nn m x : list byte) :
  length nn = length m -> length x = length nn ->
  maskedEqual nn m x = true ->
  be_decode (zipWith byte.and nn m) <= be_decode x <=
  be_decode (zipWith (fun p k => byte_or p (byte_not k)) nn m).
Proof.
  intros Hm Hx H.
  assert (HF : Forall2 (fun p q => byte.unsigned p <= byte.unsigned q)
                       (zipWith byte.and nn m) x /\
               Forall2 (fun p q => byte.unsigned p <= byte.unsigned q)
                       x (zipWith (fun p k => byte_or p (byte_not k)) nn m)).
  { revert m x Hm Hx H.
    induction nn as [|n nn IH]; intros [|k m] [|b x] Hm Hx H;
      simpl in *; try discriminate; [split; constructor|].
    destruct (Byte.eqb (byte.and n k) (byte.and b k)) eqn:E; [|discriminate].
    apply Byte.byte_dec_bl in E. destruct (masked_byte_bounds n k b E) as [H1 H2].
    destruct (IH m x) as [IH1 IH2]; [congruence | congruence | assumption |].
    split; constructor; assumption. }
  destruct HF as [H1 H2]. split; now apply be_decode_le_pointwise.
Qed.

Lemma maskedEqual_refl (nn m : list byte) : maskedEqual nn m nn = true.
Proof.
  revert m. induction nn as [|n nn IH]; intros [|k m]; simpl; trivial.
  rewrite (Byte.byte_dec_lb eq_refl). apply IH.
Qed.

(** The cut address of a slice that has one: same number, width 4 or 16. *)
Lemma v4or16_addr (ip : IP) :
  v4or16 ip <> [] ->
  validLen ip /\ validLen (v4or16 ip) /\ addr (v4or16 ip) = addr ip /\
  (length ip = IPv4len -> length (v4or16 ip) = IPv4len) /\
  (length (v4or16 ip) = IPv6len -> length ip = IPv6len).
Proof.
  intros Hn.
  destruct (v4or16_cases ip) as [[H E]|[(H & Hp & E & Hl)|[(H & Hp & E)|(_ & _ & E)]]];
    [| | |contradiction].
  - rewrite E. split; [left; exact H|]. split; [left; exact H|]. auto.
  - assert (H4 : To4 ip <> []).
    { destruct (To4_cases ip) as [[H' _]|[(_ & _ & _ & Hl')|(_ & _ & Hc)]].
      - rewrite H in H'. discriminate H'.
      - intros E0. rewrite E0 in Hl'. discriminate Hl'.
      - now apply Hc in Hp. }
    destruct (To4_addr_bounds ip H4) as (_ & Ha & _).
    assert (Et : To4 ip = v4or16 ip)
      by (unfold v4or16; destruct (To4 ip); [contradiction | reflexivity]).
    rewrite Et in Ha. rewrite (addr_v4 _ Hl).
    split; [right; exact H|]. split; [left; exact Hl|].
    split; [symmetry; exact Ha|]. split; [intros _; exact Hl|intros _; exact H].
  - rewrite E. split; [right; exact H|]. split; [right; exact H|]. auto.
Qed.

Lemma addr_le_same_length (y z : IP) :
  validLen y -> length y = length z ->
  (addr y <= addr z <-> be_decode y <= be_decode z).
Proof.
  intros [H|H] Hl.
  - rewrite !addr_v4 by congruence. lia.
  - rewrite !addr_v6 by congruence. lia.
Qed.

Section SubnetNumbers.

Variable n : IPNet.
Hypothesis Hcut : v4or16 (IPNet_IP n) <> [].
Hypothesis Hmask : length (v4or16 (IPNet_IP n)) = length (IPNet_Mask n).

Lemma To4_v4or16 (ip : IP) : To4 ip <> [] -> v4or16 ip = To4 ip.
Proof. unfold v4or16. destruct (To4 ip); [contradiction | reflexivity]. Qed.

Lemma networkNumberAndMask_ok :
  networkNumberAndMask n = (v4or16 (IPNet_IP n), IPNet_Mask n).
Proof.
  unfold networkNumberAndMask.
  destruct (To4_cases (IPNet_IP n)) as [[H E]|[(H & Hp & E & Hl)|(H4 & E & Hc)]].
  - assert (Hn : To4 (IPNet_IP n) <> []).
    { rewrite E. intros E0. rewrite E0 in H. discriminate H. }
    rewrite (To4_v4or16 _ Hn) in *. apply is_nil_false in Hn. rewrite Hn. simpl andb.
    rewrite E in *. rewrite <- Hmask, H. reflexivity.
  - assert (Hn : To4 (IPNet_IP n) <> []).
    { intros E0. rewrite E0 in Hl. discriminate Hl. }
    rewrite (To4_v4or16 _ Hn) in *. apply is_nil_false in Hn. rewrite Hn. simpl andb.
    rewrite <- Hmask, Hl. reflexivity.
  - assert (H6 : length (IPNet_IP n) = IPv6len /\ v4or16 (IPNet_IP n) = IPNet_IP n).
    { destruct (v4or16_cases (IPNet_IP n))
        as [[H _]|[(H & Hp & _)|[(H & _ & E')|(_ & _ & E')]]]; auto; try contradiction.
      exfalso. now apply Hc. }
    destruct H6 as [H6 Ev]. rewrite Ev in *. rewrite E. simpl is_nil. cbv iota.
    rewrite <- Hmask, H6. reflexivity.
Qed.

Lemma cut_length : validLen (v4or16 (IPNet_IP n)).
Proof. now destruct (v4or16_addr _ Hcut) as (_ & H & _). Qed.

Lemma Contains_cut (x : IP) :
  Contains n x = true ->
  v4or16 x <> [] /\
  length (v4or16 x) = length (v4or16 (IPNet_IP n)) /\
  maskedEqual (v4or16 (IPNet_IP n)) (IPNet_Mask n) (v4or16 x) = true.
Proof.
  unfold Contains. rewrite networkNumberAndMask_ok.
  set (x' := if is_nil (To4 x) then x else To4 x).
  destruct (Nat.eqb (length x') (length (v4or16 (IPNet_IP n)))) eqn:El;
    simpl; [|discriminate].
  apply Nat.eqb_eq in El. intros Hm.
  assert (Hx : x' = v4or16 x).
  { subst x'. unfold v4or16 at 1. destruct (is_nil (To4 x)) eqn:E4; [|reflexivity].
    apply is_nil_true in E4.
    destruct cut_length as [Hc|Hc]; rewrite Hc in El; unfold To16; rewrite El.
    - exfalso. destruct (To4_cases x) as [[_ E]|[(_ & _ & _ & Hl)|(Hn & _)]].
      + rewrite E4 in E. rewrite <- E in El. discriminate El.
      + rewrite E4 in Hl. discriminate Hl.
      + contradiction.
    - reflexivity. }
  rewrite <- Hx. repeat split; trivial.
  intros E0. rewrite E0 in El. destruct cut_length as [Hc|Hc]; rewrite Hc in El;
    discriminate El.
Qed.

Lemma length_networkAddress :
  length (networkAddress n) = length (v4or16 (IPNet_IP n)).
Proof. unfold networkAddress. now apply length_zipWith. Qed.

Lemma length_broadcastAddress :
  length (broadcastAddress n) = length (v4or16 (IPNet_IP n)).
Proof. unfold broadcastAddress. now apply length_zipWith. Qed.

Lemma validLen_networkAddress : validLen (networkAddress n).
Proof. unfold validLen. rewrite length_networkAddress. apply cut_length. Qed.

Lemma validLen_broadcastAddress : validLen (broadcastAddress n).
Proof. unfold validLen. rewrite length_broadcastAddress. apply cut_length. Qed.

(** An address the subnet contains lies between its network address and
    its broadcast address. *)
Lemma Contains_bounds (x : IP) :
  Contains n x = true ->
  validLen x /\
  addr (networkAddress n) <= addr x <= addr (broadcastAddress n) /\
  (length x = IPv4len -> length (broadcastAddress n) = IPv4len).
Proof.
  intros Hc. destruct (Contains_cut x Hc) as (Hx & Hl & Hm).
  destruct (v4or16_addr x Hx) as (Hv & Hvc & Ha & H4 & _).
  destruct (maskedEqual_bounds _ _ _ Hmask Hl Hm) as [H1 H2].
  fold (networkAddress n) in H1. fold (broadcastAddress n) in H2.
  rewrite <- Ha. split; [exact Hv|]. split; [split|].
  - apply addr_le_same_length; trivial;
      [apply validLen_networkAddress | now rewrite length_networkAddress].
  - apply addr_le_same_length; trivial. now rewrite length_broadcastAddress.
  - intros H. rewrite length_broadcastAddress, <- Hl. now apply H4.
Qed.

Lemma subnet_address_bounds :
  validLen (IPNet_IP n) /\
  addr (networkAddress n) <= addr (IPNet_IP n) <= addr (broadcastAddress n) /\
  (length (IPNet_IP n) = IPv4len -> length (broadcastAddress n) = IPv4len).
Proof.
  destruct (v4or16_addr _ Hcut) as (Hv & Hvc & Ha & H4 & _).
  destruct (maskedEqual_bounds _ _ _ Hmask eq_refl (maskedEqual_refl _ _)) as [H1 H2].
  fold (networkAddress n) in H1. fold (broadcastAddress n) in H2.
  rewrite <- Ha. split; [exact Hv|]. split; [split|].
  - apply addr_le_same_length; trivial;
      [apply validLen_networkAddress | now rewrite length_networkAddress].
  - apply addr_le_same_length; trivial. now rewrite length_broadcastAddress.
  - intros H. rewrite length_broadcastAddress. now apply H4.
Qed.

(** The broadcast address is below the top of any slice that is not a
    four-byte slice in a sixteen-byte subnet. *)
Lemma broadcast_below_top (x : IP) :
  (length x = IPv4len -> length (broadcastAddress n) = IPv4len) ->
  addr (broadcastAddress n) <= addrTop x.
Proof.
  intros H. unfold addrTop.
  destruct (Nat.eqb (length x) IPv4len) eqn:E.
  - apply Nat.eqb_eq in E. specialize (H E).
    rewrite (addr_v4 _ H). pose proof (be_decode_bound (broadcastAddress n)) as Hb.
    rewrite H in Hb. change (2 ^ (8 * Z.of_nat IPv4len)) with (2 ^ 32) in Hb. lia.
  - unfold addr. pose proof (be_decode_bound (To16 (broadcastAddress n))) as Hb.
    rewrite (length_To16 _ validLen_broadcastAddress) in Hb.
    change (2 ^ (8 * Z.of_nat IPv6len)) with (2 ^ 128) in Hb. lia.
Qed.

End SubnetNumbers.

Section NetworkAddress.

Context {St : Type} {store : Store St}.

Variable c : IPAMConfig.
Variable a : IPAllocator.
Hypothesis Hrange :
  networkRange (Subnet c) = Ok (IPNet_IP (Subnet c), broadcastAddress (Subnet c)).
Hypothesis Hstart : start a = NextIP (IPNet_IP (Subnet c)).
Hypothesis Hend : end_ a = broadcastAddress (Subnet c).
Hypothesis Hhost :
  Equal (IPNet_IP (Subnet c)) (broadcastAddress (Subnet c)) = false.

Lemma range_cut :
  v4or16 (IPNet_IP (Subnet c)) <> [] /\
  length (v4or16 (IPNet_IP (Subnet c))) = length (IPNet_Mask (Subnet c)).
Proof. apply networkRange_Ok in Hrange. tauto. Qed.

Lemma start_aboveNetwork : aboveNetwork (Subnet c) (start a).
Proof.
  destruct range_cut as [Hcut Hmask].
  destruct (subnet_address_bounds _ Hcut Hmask) as (Hv & [Hlo Hhi] & H4).
  pose proof (validLen_broadcastAddress _ Hcut Hmask) as Hvb.
  assert (Hlt : addr (IPNet_IP (Subnet c)) < addr (broadcastAddress (Subnet c))).
  { apply (Equal_false_addr _ _ Hv Hvb) in Hhost. lia. }
  pose proof (broadcast_below_top _ Hcut Hmask _ H4) as Htop.
  assert (Hn : addr (start a) = addr (IPNet_IP (Subnet c)) + 1)
    by (rewrite Hstart; apply addr_NextIP; trivial; lia).
  unfold aboveNetwork, inSubnetNumbers. rewrite Hn.
  repeat split; try lia.
  - rewrite Hstart. now apply validLen_NextIP.
  - rewrite Hstart, length_NextIP. exact H4.
Qed.

Lemma nextIP_aboveNetwork (x : IP) : inSubnetNumbers (Subnet c) x -> aboveNetwork (Subnet c) (nextIP a x).
Proof.
  intros (Hv & [Hlo Hhi] & H4). unfold nextIP.
  destruct (Equal x (end_ a)) eqn:E; [apply start_aboveNetwork|].
  destruct range_cut as [Hcut Hmask].
  pose proof (validLen_broadcastAddress _ Hcut Hmask) as Hvb.
  rewrite Hend in E. apply (Equal_false_addr _ _ Hv Hvb) in E.
  pose proof (broadcast_below_top _ Hcut Hmask _ H4) as Htop.
  assert (Hn : addr (NextIP x) = addr x + 1) by (apply addr_NextIP; trivial; lia).
  unfold aboveNetwork, inSubnetNumbers. rewrite Hn, length_NextIP.
  repeat split; try lia; trivial. now apply validLen_NextIP.
Qed.

Lemma aboveNetwork_not_network (x : IP) :
  aboveNetwork (Subnet c) x -> Equal x (networkAddress (Subnet c)) = false.
Proof.
  intros [(Hv & _) Hlt]. destruct range_cut as [Hcut Hmask].
  apply Equal_false_addr; trivial; [now apply validLen_networkAddress | lia].
Qed.

(** Every address a search offers stays above the network address, when
    its first candidate does. *)
Lemma search_aboveNetwork (fuel : nat) (gw : IP) (id : string) (endIP cur : IP)
      (s s' : St) (r : result IPConfig) (tr : list Event) :
  aboveNetwork (Subnet c) cur ->
  search fuel a gw id endIP cur s = Some (r, s', tr) ->
  Forall (fun x => Equal x (networkAddress (Subnet c)) = false /\
                   Equal x endIP = false) (reserved tr).
Proof.
  intros Hcur Hs.
  destruct (search_invariant (aboveNetwork (Subnet c)) a gw id endIP
              (fun x Hx _ => nextIP_aboveNetwork x (proj1 Hx))
              fuel cur s s' r tr Hcur Hs) as (HF & _).
  eapply Forall_impl; [|exact HF]. cbv beta.
  intros x (Hx & He & _). split; [now apply aboveNetwork_not_network | exact He].
Qed.

End NetworkAddress.

Section Reserved.

Context {St : Type} {store : Store St}.

(** C2 (as amended).  For a configuration that [NewIPAllocator] accepts,
    that sets no [RangeStart], no [RangeEnd] and no requested address, and
    whose subnet address is not the subnet's broadcast address, in every
    store state: [Get] never passes the subnet's network address to
    [Reserve]; and when the search is not seeded from the marker, [Get]
    does not pass the broadcast address to [Reserve] either. *)
Theorem Get_spares_network_address (c : IPAMConfig) (s0 s0' : St) (tr0 : list Event)
        (a : IPAllocator) (fuel : nat) (id : string) (s s' : St)
        (r : result IPConfig) (tr : list Event) :
  NewIPAllocator c s0 = (Ok a, s0', tr0) ->
  RangeStart c = [] -> RangeEnd c = [] -> requestedIP c = [] ->
  Equal (IPNet_IP (Subnet c)) (broadcastAddress (Subnet c)) = false ->
  Get fuel a id s = Some (r, s', tr) ->
  Forall (fun x => Equal x (networkAddress (Subnet c)) = false) (reserved tr) /\
  (startFromLastReservedIP a (fst (LastReservedIP (Lock s))) = false ->
   Forall (fun x => Equal x (broadcastAddress (Subnet c)) = false) (reserved tr)).
Proof.
  intros Hnew Hrs Hre Hreq Hhost Hget.
  destruct (NewIPAllocator_Ok _ _ _ _ _ Hnew) as (Hrange & Hstart & Hend & Hc & _).
  rewrite Hrs in Hstart. rewrite Hre in Hend. simpl in Hstart, Hend.
  rewrite <- Hc in Hreq. rewrite (Get_search_eq fuel a id s Hreq) in Hget.
  pose proof (reserved_getSearchRange a (Lock s)) as Hres.
  rewrite getSearchRange_eq in *. cbn [fst snd] in *.
  set (m := fst (LastReservedIP (Lock s))) in *.
  match type of Hget with
  | match ?x with _ => _ end = _ => destruct x as [[[r2 s2] tr2]|] eqn:Hs; [|discriminate]
  end.
  injection Hget as <- <- <-.
  rewrite (reserved_Get_trace _ _ Hres).
  destruct (startFromLastReservedIP a m) eqn:Eseed.
  - split; [|discriminate].
    destruct m as [mk|e]; [|discriminate Eseed].
    cbn [fst snd] in Hs.
    assert (Hin : Contains (Subnet c) mk = true).
    { unfold startFromLastReservedIP in Eseed.
      destruct (negb (is_nil mk)); [|discriminate].
      destruct (validateRangeIP mk (subnetOf (conf a))) eqn:Ev; [discriminate|].
      apply validateRangeIP_None in Ev. now rewrite subnetOf_Subnet, Hc in Ev. }
    destruct (range_cut c Hrange) as [Hcut Hmask].
    pose proof (Contains_bounds _ Hcut Hmask mk Hin) as Hmk.
    pose proof (nextIP_aboveNetwork c a Hrange Hstart Hend Hhost mk Hmk) as Hcur.
    eapply Forall_impl;
      [|exact (search_aboveNetwork c a Hrange Hstart Hend Hhost _ _ _ _ _ _ _ _ _ Hcur Hs)].
    cbv beta. tauto.
  - cbn [fst snd] in Hs.
    pose proof (search_aboveNetwork c a Hrange Hstart Hend Hhost _ _ _ _ _ _ _ _ _
                  (start_aboveNetwork c a Hrange Hstart Hhost) Hs) as HF.
    split; [|intros _]; (eapply Forall_impl; [|exact HF]); cbv beta;
      [tauto | rewrite Hend; tauto].
Qed.

End Reserved.

(** The second [Get] in 10.0.0.0/30 offers 10.0.0.3, not the network
    address 10.0.0.0. *)
Lemma Get_spares_network_address_witness :
  Forall (fun x => Equal x (ip4 10 0 0 0) = false) [ip4 10 0 0 3].
Proof.
  exact (proj1
    (@Get_spares_network_address MemStore memStore conf30 emptyStore emptyStore []
       alloc30 1 "B"%string (storeWith [(ip4 10 0 0 2, "A"%string)] (ip4 10 0 0 2))
       (storeWith [(ip4 10 0 0 2, "A"%string); (ip4 10 0 0 3, "B"%string)] (ip4 10 0 0 3))
       (Ok (ipConfigFor conf30 (ip4 10 0 0 3) (ip4 10 0 0 1)))
       [EvLock; EvLastReservedIP; EvReserve "B"%string (ip4 10 0 0 3); EvUnlock]
       eq_refl eq_refl eq_refl eq_refl eq_refl eq_refl)).
Defined.

(** C2, counterexample.  Both addresses reach [Reserve] when they are
    requested: in 10.0.0.0/30 a request for 10.0.0.0, the network address,
    passes the gateway and subnet checks and is reserved, and so is a
    request for 10.0.0.3, the broadcast address.  A search offers the
    network address too when [RangeStart] names it, [RangeStart] being
    taken as it is. *)
Lemma Get_reserves_requested_network_and_broadcast :
  networkAddress (Subnet conf30) = ip4 10 0 0 0 /\
  broadcastAddress (Subnet conf30) = ip4 10 0 0 3 /\
  NewIPAllocator (conf30requesting (ip4 10 0 0 0)) emptyStore =
    (Ok (alloc30requesting (ip4 10 0 0 0)), emptyStore, []) /\
  Get 0 (alloc30requesting (ip4 10 0 0 0)) "A" emptyStore =
    Some (Ok (ipConfigFor conf30 (ip4 10 0 0 0) (ip4 10 0 0 1)),
          storeWith [(ip4 10 0 0 0, "A"%string)] (ip4 10 0 0 0),
          [EvLock; EvReserve "A" (ip4 10 0 0 0); EvUnlock]) /\
  NewIPAllocator (conf30requesting (ip4 10 0 0 3)) emptyStore =
    (Ok (alloc30requesting (ip4 10 0 0 3)), emptyStore, []) /\
  Get 0 (alloc30requesting (ip4 10 0 0 3)) "A" emptyStore =
    Some (Ok (ipConfigFor conf30 (ip4 10 0 0 3) (ip4 10 0 0 1)),
          storeWith [(ip4 10 0 0 3, "A"%string)] (ip4 10 0 0 3),
          [EvLock; EvReserve "A" (ip4 10 0 0 3); EvUnlock]) /\
  NewIPAllocator conf30from0 emptyStore = (Ok alloc30from0, emptyStore, []) /\
  Get 1 alloc30from0 "A" emptyStore =
    Some (Ok (ipConfigFor conf30 (ip4 10 0 0 0) (ip4 10 0 0 1)),
          storeWith [(ip4 10 0 0 0, "A"%string)] (ip4 10 0 0 0),
          [EvLock; EvLastReservedIP; EvReserve "A" (ip4 10 0 0 0); EvUnlock]).
Proof. repeat split. Qed.

(** * Further properties of the allocator *)

Section GetTrace.

Context {St : Type} {store : Store St}.





(** A search that returns an address returns the one it reserved last. *)
Lemma search_Ok_last a gw id endIP (fuel : nat) :
  forall cur (s s' : St) cfg tr,
    search fuel a gw id endIP cur s = Some (Ok cfg, s', tr) ->
    exists pre c, reserved tr = pre ++ [c] /\ cfg = ipConfigFor (conf a) c gw.
Proof.
  induction fuel as [|fuel IH]; intros cur s s' cfg tr; simpl; [discriminate|].
  destruct (Equal cur endIP); [discriminate|].
  destruct (negb (is_nil gw) && Equal cur gw); [apply IH|].
  destruct (Reserve id cur s) as [[[|]|e] s1].
  - intros H; injection H as <- <- <-. exists [], cur. auto.
  - destruct (search fuel a gw id endIP (nextIP a cur) s1) as [[[r' s2] tr']|] eqn:E;
      [|discriminate].
    intros H; injection H as -> <- <-.
    destruct (IH _ _ _ _ _ E) as (pre & c & Hp & Hc).
    exists (cur :: pre), c. simpl. now rewrite Hp.
  - discriminate.
Qed.







End GetTrace.


Section GetResults.

Context {St : Type} {store : Store St}.

(** X2.  [Get] never passes the gateway to [Reserve], on the search path
    or for a requested address, whether it succeeds or fails. *)
Theorem Get_never_offers_gateway (fuel : nat) (a : IPAllocator) (id : string)
        (s s' : St) (r : result IPConfig) (tr : list Event) :
  resolveGateway (conf a) <> [] ->
  Get fuel a id s = Some (r, s', tr) ->
  Forall (fun x => Equal x (resolveGateway (conf a)) = false) (reserved tr).
Proof.
  intros Hgw Hget. apply is_nil_false in Hgw.
  destruct (is_nil (requestedIP (conf a))) eqn:Ereq.
  - apply is_nil_true in Ereq. rewrite (Get_search_eq _ _ _ _ Ereq) in Hget.
    pose proof (reserved_getSearchRange a (Lock s)) as Hres.
    match type of Hget with
    | match ?x with _ => _ end = _ => destruct x as [[[r2 s2] tr2]|] eqn:Hs; [|discriminate]
    end.
    injection Hget as <- <- <-. rewrite (reserved_Get_trace _ _ Hres).
    destruct (search_invariant (fun _ => True) _ _ _ _ (fun _ _ _ => I)
                _ _ _ _ _ _ I Hs) as (HF & _).
    eapply Forall_impl; [|exact HF]. cbv beta. intros x (_ & _ & Hn).
    unfold notGateway in Hn. rewrite Hgw in Hn. simpl in Hn.
    now apply negb_true_iff in Hn.
  - apply is_nil_false in Ereq. rewrite (Get_requested_eq _ _ _ _ Ereq) in Hget.
    cbv zeta in Hget. rewrite Hgw in Hget. simpl in Hget.
    destruct (Equal (resolveGateway (conf a)) (requestedIP (conf a))) eqn:Eg.
    { injection Hget as <- <- <-. constructor. }
    destruct (negb (Contains (subnetOf (conf a)) (requestedIP (conf a)))).
    { injection Hget as <- <- <-. constructor. }
    injection Hget as <- <- <-. simpl. constructor; [|constructor].
    now rewrite Equal_sym.
Qed.

(** X3.  The address of a successful [Get] is the one of its last
    [Reserve] call (the requested one when an address is requested), and
    it comes with the subnet's mask, the resolved gateway and the
    configured routes. *)
Theorem Get_result_is_last_reserved (fuel : nat) (a : IPAllocator) (id : string)
        (s s' : St) (cfg : IPConfig) (tr : list Event) :
  Get fuel a id s = Some (Ok cfg, s', tr) ->
  (exists pre, reserved tr = pre ++ [IPNet_IP (IPConfig_IP cfg)]) /\
  IPNet_Mask (IPConfig_IP cfg) = IPNet_Mask (Subnet (conf a)) /\
  IPConfig_Gateway cfg = resolveGateway (conf a) /\
  IPConfig_Routes cfg = Routes (conf a) /\
  (requestedIP (conf a) <> [] ->
   IPNet_IP (IPConfig_IP cfg) = requestedIP (conf a) /\
   reserved tr = [requestedIP (conf a)]).
Proof.
  intros Hget.
  destruct (is_nil (requestedIP (conf a))) eqn:Ereq.
  - apply is_nil_true in Ereq. rewrite (Get_search_eq _ _ _ _ Ereq) in Hget.
    pose proof (reserved_getSearchRange a (Lock s)) as Hres.
    match type of Hget with
    | match ?x with _ => _ end = _ => destruct x as [[[r2 s2] tr2]|] eqn:Hs; [|discriminate]
    end.
    injection Hget as -> <- <-. rewrite (reserved_Get_trace _ _ Hres).
    destruct (search_Ok_last _ _ _ _ _ _ _ _ _ _ Hs) as (pre & c & Hp & ->).
    simpl. split; [now exists pre|]. repeat split; congruence.
  - apply is_nil_false in Ereq. rewrite (Get_requested_eq _ _ _ _ Ereq) in Hget.
    cbv zeta in Hget.
    destruct (negb (is_nil (resolveGateway (conf a)))
              && Equal (resolveGateway (conf a)) (requestedIP (conf a))); [discriminate|].
    destruct (negb (Contains (subnetOf (conf a)) (requestedIP (conf a)))); [discriminate|].
    destruct (fst (Reserve id (requestedIP (conf a)) (Lock s))) as [[|]|e];
      try discriminate.
    injection Hget as <- <- <-. simpl. repeat split. now exists [].
Qed.


End GetResults.

(** The second [Get] of the 10.0.0.0/30 scenario offers 10.0.0.3 only. *)
Lemma Get_never_offers_gateway_witness :
  Forall (fun x => Equal x (ip4 10 0 0 1) = false) [ip4 10 0 0 3].
Proof.
  apply (@Get_never_offers_gateway MemStore memStore 1 alloc30 "B"%string
           (storeWith [(ip4 10 0 0 2, "A"%string)] (ip4 10 0 0 2))
           (storeWith [(ip4 10 0 0 2, "A"%string); (ip4 10 0 0 3, "B"%string)]
                      (ip4 10 0 0 3))
           (Ok (ipConfigFor conf30 (ip4 10 0 0 3) (ip4 10 0 0 1)))
           [EvLock; EvLastReservedIP; EvReserve "B"%string (ip4 10 0 0 3); EvUnlock]);
    [discriminate | reflexivity].
Defined.

(** The first [Get] of the scenario returns 10.0.0.2, which it reserved. *)
Lemma Get_result_is_last_reserved_witness :
  exists pre, [ip4 10 0 0 2] = pre ++ [ip4 10 0 0 2].
Proof.
  exact (proj1 (@Get_result_is_last_reserved MemStore memStore 2 alloc30 "A"%string
           emptyStore (storeWith [(ip4 10 0 0 2, "A"%string)] (ip4 10 0 0 2))
           (ipConfigFor conf30 (ip4 10 0 0 2) (ip4 10 0 0 1))
           [EvLock; EvLastReservedIP; EvReserve "A"%string (ip4 10 0 0 2); EvUnlock]
           eq_refl)).
Defined.


Section Atomic.

Context {St : Type} {store : Store St}.

(** Over a store that a [Reserve] without success leaves as it was, a
    search changes the store only by the reservation it returns. *)
Lemma search_atomic a gw id endIP :
  (forall ip (s : St), fst (Reserve id ip s) <> Ok true -> snd (Reserve id ip s) = s) ->
  forall fuel cur (s s' : St) r tr,
    search fuel a gw id endIP cur s = Some (r, s', tr) ->
    match r with
    | Err _ => s' = s
    | Ok cfg => Reserve id (IPNet_IP (IPConfig_IP cfg)) s = (Ok true, s')
    end.
Proof.
  intros HR. induction fuel as [|fuel IH]; intros cur s s' r tr; simpl; [discriminate|].
  destruct (Equal cur endIP); [intros H; injection H as <- <- _; reflexivity|].
  destruct (negb (is_nil gw) && Equal cur gw); [apply IH|].
  pose proof (HR cur s) as Hs.
  destruct (Reserve id cur s) as [[[|]|e] s1] eqn:Er; simpl in Hs.
  - intros H; injection H as <- <- _. exact Er.
  - rewrite Hs by discriminate.
    destruct (search fuel a gw id endIP (nextIP a cur) s) as [[[r' s2] tr']|] eqn:E;
      [|discriminate].
    intros H; injection H as <- <- _. exact (IH _ _ _ _ _ E).
  - intros H; injection H as <- <- _. apply Hs. discriminate.
Qed.

(** X5.  Over a store whose [Lock], [Unlock] and [LastReservedIP] leave
    the table as it is and whose [Reserve] changes it only when it
    succeeds, a failing [Get] leaves the store unchanged, and a successful
    [Get] changes it by exactly one successful [Reserve], that of the
    address it returns. *)
Theorem Get_all_or_nothing (fuel : nat) (a : IPAllocator) (id : string)
        (s s' : St) (r : result IPConfig) (tr : list Event) :
  (forall s0 : St, Lock s0 = s0) ->
  (forall s0 : St, Unlock s0 = s0) ->
  (forall s0 : St, snd (LastReservedIP s0) = s0) ->
  (forall ip (s0 : St), fst (Reserve id ip s0) <> Ok true -> snd (Reserve id ip s0) = s0) ->
  Get fuel a id s = Some (r, s', tr) ->
  match r with
  | Err _ => s' = s
  | Ok cfg => Reserve id (IPNet_IP (IPConfig_IP cfg)) s = (Ok true, s')
  end.
Proof.
  intros HL HU HM HR Hget.
  destruct (is_nil (requestedIP (conf a))) eqn:Ereq.
  - apply is_nil_true in Ereq. rewrite (Get_search_eq _ _ _ _ Ereq) in Hget.
    rewrite getSearchRange_eq in Hget. cbn [fst snd] in Hget.
    rewrite HL, HM in Hget.
    match type of Hget with
    | match ?x with _ => _ end = _ => destruct x as [[[r2 s2] tr2]|] eqn:Hs; [|discriminate]
    end.
    injection Hget as <- <- _. rewrite HU.
    exact (search_atomic _ _ _ _ HR _ _ _ _ _ _ Hs).
  - apply is_nil_false in Ereq. rewrite (Get_requested_eq _ _ _ _ Ereq) in Hget.
    cbv zeta in Hget. rewrite !HL, !HU in Hget.
    destruct (negb (is_nil (resolveGateway (conf a)))
              && Equal (resolveGateway (conf a)) (requestedIP (conf a))).
    { now injection Hget as <- <- _. }
    destruct (negb (Contains (subnetOf (conf a)) (requestedIP (conf a)))).
    { now injection Hget as <- <- _. }
    pose proof (HR (requestedIP (conf a)) s) as Hs.
    destruct (Reserve id (requestedIP (conf a)) s) as [[[|]|e] s1] eqn:Er;
      simpl in Hs, Hget; injection Hget as <- <- _.
    + exact Er.
    + apply Hs. discriminate.
    + apply Hs. discriminate.
Qed.

End Atomic.

Lemma mem_Reserve_unchanged (id : string) (ip : IP) (s : MemStore) :
  fst (mem_Reserve id ip s) <> Ok true -> snd (mem_Reserve id ip s) = s.
Proof. unfold mem_Reserve. destruct (owned ip (records s)); simpl; congruence. Qed.

(** The first [Get] of the scenario changes the table by the reservation
    of 10.0.0.2 alone. *)
Lemma Get_all_or_nothing_witness :
  Reserve "A" (ip4 10 0 0 2) emptyStore =
  (Ok true, storeWith [(ip4 10 0 0 2, "A"%string)] (ip4 10 0 0 2)).
Proof.
  exact (@Get_all_or_nothing MemStore memStore 2 alloc30 "A"%string
           emptyStore (storeWith [(ip4 10 0 0 2, "A"%string)] (ip4 10 0 0 2))
           (Ok (ipConfigFor conf30 (ip4 10 0 0 2) (ip4 10 0 0 1)))
           [EvLock; EvLastReservedIP; EvReserve "A"%string (ip4 10 0 0 2); EvUnlock]
           (fun _ => eq_refl) (fun _ => eq_refl) (fun _ => eq_refl)
           (mem_Reserve_unchanged "A") eq_refl).
Defined.

(** ** The allocator over the in-memory store *)

Lemma ForallOrdPairs_snoc {A : Type} (R : A -> A -> Prop) (l : list A) (x : A) :
  ForallOrdPairs R l -> Forall (fun y => R y x) l -> ForallOrdPairs R (l ++ [x]).
Proof.
  induction 1 as [|y l Hy Hl IH]; intros HF; simpl.
  - constructor; constructor.
  - inversion HF as [|? ? Hyx HF']; subst. constructor.
    + apply Forall_app. split; [exact Hy | constructor; [exact Hyx | constructor]].
    + now apply IH.
Qed.

Lemma ForallOrdPairs_filter {A : Type} (R : A -> A -> Prop) (f : A -> bool) (l : list A) :
  ForallOrdPairs R l -> ForallOrdPairs R (filter f l).
Proof.
  induction 1 as [|y l Hy Hl IH]; simpl; [constructor|].
  destruct (f y); [|exact IH]. constructor; [|exact IH].
  rewrite Forall_forall in *. intros z Hz. apply Hy. apply filter_In in Hz. tauto.
Qed.

Lemma owned_false (ip : IP) (rs : list (IP * string)) :
  owned ip rs = false -> Forall (fun r => Equal (fst r) ip = false) rs.
Proof.
  unfold owned. induction rs as [|r rs IH]; simpl; [constructor|].
  intros H. apply orb_false_iff in H. destruct H as [H1 H2].
  constructor; [exact H1 | now apply IH].
Qed.

(** What a [Get] does to the table of the in-memory store. *)
Lemma Get_mem_effect (fuel : nat) (a : IPAllocator) (id : string) (s s' : MemStore)
      (r : result IPConfig) (tr : list Event) :
  Get fuel a id s = Some (r, s', tr) ->
  match r with
  | Err _ => s' = s
  | Ok cfg =>
      owned (IPNet_IP (IPConfig_IP cfg)) (records s) = false /\
      s' = {| records := records s ++ [(IPNet_IP (IPConfig_IP cfg), id)];
              marker := IPNet_IP (IPConfig_IP cfg) |}
  end.
Proof.
  intros Hget.
  pose proof (@Get_search_eq MemStore memStore fuel a id s) as Hsearch.
  pose proof (@Get_requested_eq MemStore memStore fuel a id s) as Hreq.
  assert (H : match r with
              | Err _ => s' = s
              | Ok cfg => mem_Reserve id (IPNet_IP (IPConfig_IP cfg)) s = (Ok true, s')
              end).
  { destruct (is_nil (requestedIP (conf a))) eqn:Ereq.
    - apply is_nil_true in Ereq. rewrite (Hsearch Ereq) in Hget.
      rewrite getSearchRange_eq in Hget. cbn [fst snd] in Hget.
      match type of Hget with
      | match ?x with _ => _ end = _ =>
          destruct x as [[[r2 s2] tr2]|] eqn:Hs; [|discriminate]
      end.
      injection Hget as <- <- _.
      exact (search_atomic _ _ _ _ (mem_Reserve_unchanged id) _ _ _ _ _ _ Hs).
    - apply is_nil_false in Ereq. rewrite (Hreq Ereq) in Hget. cbv zeta in Hget.
      destruct (negb (is_nil (resolveGateway (conf a)))
                && Equal (resolveGateway (conf a)) (requestedIP (conf a))).
      { now injection Hget as <- <- _. }
      destruct (negb (Contains (subnetOf (conf a)) (requestedIP (conf a)))).
      { now injection Hget as <- <- _. }
      simpl in Hget.
      pose proof (mem_Reserve_unchanged id (requestedIP (conf a)) s) as Hs.
      destruct (mem_Reserve id (requestedIP (conf a)) s) as [[[|]|e] s1] eqn:Er;
        simpl in Hs, Hget; injection Hget as <- <- _;
        [exact Er | apply Hs; discriminate | apply Hs; discriminate]. }
  destruct r as [cfg|e]; [|exact H].
  unfold mem_Reserve in H.
  destruct (owned (IPNet_IP (IPConfig_IP cfg)) (records s)); [discriminate|].
  injection H as <-. auto.
Qed.

(** X6.  Over the in-memory store, a successful [Get] returns an address
    that had no owner and records it for the caller, a failing [Get] leaves
    the table as it was, and [Get] and [Release] keep the addresses of the
    records pairwise different: no address is handed out twice while it is
    held. *)
Theorem Get_hands_out_free_addresses (fuel : nat) (a : IPAllocator) (id : string)
        (s s' : MemStore) (r : result IPConfig) (tr : list Event) :
  uniqueAddresses (records s) ->
  Get fuel a id s = Some (r, s', tr) ->
  uniqueAddresses (records s') /\
  uniqueAddresses (records (snd (fst (Release a id s')))) /\
  (forall cfg, r = Ok cfg ->
     owned (IPNet_IP (IPConfig_IP cfg)) (records s) = false /\
     records s' = records s ++ [(IPNet_IP (IPConfig_IP cfg), id)] /\
     marker s' = IPNet_IP (IPConfig_IP cfg)) /\
  (forall e, r = Err e -> s' = s).
Proof.
  intros Hu Hget. pose proof (Get_mem_effect _ _ _ _ _ _ _ Hget) as H.
  assert (Hu' : uniqueAddresses (records s')).
  { destruct r as [cfg|e]; [|now subst].
    destruct H as [Ho ->]. simpl. apply ForallOrdPairs_snoc; [exact Hu|].
    exact (owned_false _ _ Ho). }
  split; [exact Hu'|]. split; [|split].
  - unfold Release. simpl. now apply ForallOrdPairs_filter.
  - intros cfg ->. destruct H as [Ho ->]. auto.
  - intros e ->. exact H.
Qed.

(** The second [Get] of the scenario: 10.0.0.3 had no owner. *)
Lemma Get_hands_out_free_addresses_witness :
  owned (ip4 10 0 0 3) [(ip4 10 0 0 2, "A"%string)] = false.
Proof.
  refine (proj1 (proj1 (proj2 (proj2
    (Get_hands_out_free_addresses 1 alloc30 "B"%string
       (storeWith [(ip4 10 0 0 2, "A"%string)] (ip4 10 0 0 2))
       (storeWith [(ip4 10 0 0 2, "A"%string); (ip4 10 0 0 3, "B"%string)]
                  (ip4 10 0 0 3))
       (Ok (ipConfigFor conf30 (ip4 10 0 0 3) (ip4 10 0 0 1)))
       [EvLock; EvLastReservedIP; EvReserve "B"%string (ip4 10 0 0 3); EvUnlock]
       _ eq_refl))) _ eq_refl)).
  constructor; constructor.
Defined.

Lemma filter_all {A : Type} (f : A -> bool) (l : list A) :
  (forall x, In x l -> f x = true) -> filter f l = l.
Proof.
  induction l as [|x l IH]; intros H; simpl; [reflexivity|].
  rewrite (H x (or_introl eq_refl)). f_equal. apply IH. intros y Hy. apply H. now right.
Qed.

(** X7.  Over the in-memory store, a [Get] followed by a [Release] of the
    same owner leaves the records that the [Release] alone leaves; for an
    owner that held nothing before, the records are those from before the
    [Get]. *)
Theorem Release_undoes_Get (fuel : nat) (a a' : IPAllocator) (id : string)
        (s s' : MemStore) (r : result IPConfig) (tr : list Event) :
  Get fuel a id s = Some (r, s', tr) ->
  records (snd (fst (Release a' id s'))) = records (snd (fst (Release a' id s))) /\
  ((forall rec, In rec (records s) -> snd rec <> id) ->
   records (snd (fst (Release a' id s'))) = records s).
Proof.
  intros Hget. pose proof (Get_mem_effect _ _ _ _ _ _ _ Hget) as H.
  assert (E : records (snd (fst (Release a' id s'))) =
              records (snd (fst (Release a' id s)))).
  { unfold Release. simpl. destruct r as [cfg|e]; [|now subst].
    destruct H as [_ ->]. simpl. rewrite filter_app. simpl.
    rewrite String.eqb_refl. simpl. apply app_nil_r. }
  split; [exact E|]. intros Hn. rewrite E. unfold Release. simpl.
  apply filter_all. intros rec Hin. apply negb_true_iff, String.eqb_neq. now apply Hn.
Qed.

(** The first [Get] of the scenario, undone. *)
Lemma Release_undoes_Get_witness :
  records (snd (fst (Release alloc30 "A"
                       (storeWith [(ip4 10 0 0 2, "A"%string)] (ip4 10 0 0 2))))) = [].
Proof.
  refine (proj2 (Release_undoes_Get 2 alloc30 alloc30 "A"%string emptyStore
                   (storeWith [(ip4 10 0 0 2, "A"%string)] (ip4 10 0 0 2))
                   (Ok (ipConfigFor conf30 (ip4 10 0 0 2) (ip4 10 0 0 1)))
                   [EvLock; EvLastReservedIP; EvReserve "A"%string (ip4 10 0 0 2);
                    EvUnlock] eq_refl) _).
  intros rec [].
Defined.

(** ** Searches seeded from the marker *)

(** The numbers of a walk that stays below the top of its width. *)
Lemma walk_addr (n : nat) :
  forall cur,
    validLen cur -> addr cur + Z.of_nat n <= addrTop cur + 1 ->
    map addr (walk n cur) = map (fun i => addr cur + Z.of_nat i) (seq 0 n).
Proof.
  induction n as [|n IH]; intros cur Hv Ht; [reflexivity|].
  cbn [walk map seq]. f_equal; [lia|].
  destruct n as [|n]; [reflexivity|].
  assert (Hnx : addr (NextIP cur) = addr cur + 1) by (apply addr_NextIP; trivial; lia).
  rewrite IH; [|now apply validLen_NextIP | rewrite addrTop_NextIP; lia].
  rewrite <- seq_shift, map_map. apply map_ext. intros i. lia.
Qed.

Section Seeded.

Variable a : IPAllocator.
Context {St : Type} {store : Store St}.

(** A search towards an address [e] not beyond [end], from [n] steps below
    [e]: it ends within [n + 1] iterations and offers a first part of the
    walk, the gateway left out. *)
Lemma search_towards (gw : IP) (id : string) (e : IP) (n : nat) :
  forall fuel cur (s : St),
    validLen cur -> validLen e -> validLen (end_ a) ->
    addr cur + Z.of_nat n = addr e -> addr e <= addr (end_ a) ->
    addr (end_ a) <= addrTop cur ->
    (n < fuel)%nat ->
    exists r s' tr,
      search fuel a gw id e cur s = Some (r, s', tr) /\
      exists k, reserved tr = firstn k (filter (notGateway gw) (walk n cur)).
Proof.
  induction n as [|n IH]; intros fuel cur s Hc He Hend Hn Hle Ht Hf;
    (destruct fuel as [|fuel]; [lia|]); cbn [search].
  - assert (Heq : Equal cur e = true) by (apply Equal_addr; trivial; lia).
    rewrite Heq. do 3 eexists. split; [reflexivity|]. exists 0%nat. reflexivity.
  - assert (Hne : Equal cur e = false) by (apply Equal_false_addr; trivial; lia).
    assert (Hne' : Equal cur (end_ a) = false) by (apply Equal_false_addr; trivial; lia).
    assert (Hnx : addr (NextIP cur) = addr cur + 1) by (apply addr_NextIP; trivial; lia).
    assert (Hnext : nextIP a cur = NextIP cur) by (unfold nextIP; now rewrite Hne').
    rewrite Hne, Hnext. cbn [walk filter]. unfold notGateway at 1.
    destruct (negb (is_nil gw) && Equal cur gw) eqn:Eg; cbn [negb].
    + apply IH; trivial;
        [now apply validLen_NextIP | lia | now rewrite addrTop_NextIP | lia].
    + destruct (Reserve id cur s) as [[[|]|e0] s1].
      * do 3 eexists. split; [reflexivity|]. exists 1%nat. reflexivity.
      * destruct (IH fuel (NextIP cur) s1) as (r & s' & tr & Hs & k & Hk);
          [now apply validLen_NextIP | assumption | assumption | lia | assumption
          | now rewrite addrTop_NextIP | lia |].
        rewrite Hs. do 3 eexists. split; [reflexivity|].
        exists (S k). simpl. now rewrite Hk.
      * do 3 eexists. split; [reflexivity|]. exists 1%nat. reflexivity.
Qed.

(** A search towards [e] from above [e]: it walks up to [end], [end]
    included, goes on from [start] and walks up to [e]. *)
Lemma search_wrapping (gw : IP) (id : string) (e : IP) (n2 n1 : nat) :
  forall fuel cur (s : St),
    validLen cur -> validLen e -> validLen (end_ a) -> validLen (start a) ->
    addr e < addr cur ->
    addr cur + Z.of_nat n1 = addr (end_ a) ->
    addr (start a) + Z.of_nat n2 = addr e ->
    addr (end_ a) <= addrTop cur -> addr (end_ a) <= addrTop (start a) ->
    (n1 + n2 + 1 < fuel)%nat ->
    exists r s' tr,
      search fuel a gw id e cur s = Some (r, s', tr) /\
      exists k, reserved tr =
                firstn k (filter (notGateway gw) (walk (S n1) cur ++ walk n2 (start a))).
Proof.
  induction n1 as [|n1 IH]; intros fuel cur s Hc He Hend Hst Hlt Hn1 Hn2 Ht Hts Hf;
    (destruct fuel as [|fuel]; [lia|]); cbn [search];
    assert (Hne : Equal cur e = false) by (apply Equal_false_addr; trivial; lia);
    rewrite Hne; cbn [walk app filter]; unfold notGateway at 1.
  - assert (Heq : Equal cur (end_ a) = true) by (apply Equal_addr; trivial; lia).
    assert (Hnext : nextIP a cur = start a) by (unfold nextIP; now rewrite Heq).
    rewrite Hnext.
    destruct (negb (is_nil gw) && Equal cur gw) eqn:Eg; cbn [negb].
    + apply search_towards; trivial; lia.
    + destruct (Reserve id cur s) as [[[|]|e0] s1].
      * do 3 eexists. split; [reflexivity|]. exists 1%nat. reflexivity.
      * destruct (search_towards gw id e n2 fuel (start a) s1)
          as (r & s' & tr & Hs & k & Hk); trivial; try lia.
        rewrite Hs. do 3 eexists. split; [reflexivity|].
        exists (S k). simpl. now rewrite Hk.
      * do 3 eexists. split; [reflexivity|]. exists 1%nat. reflexivity.
  - assert (Hne' : Equal cur (end_ a) = false) by (apply Equal_false_addr; trivial; lia).
    assert (Hnx : addr (NextIP cur) = addr cur + 1) by (apply addr_NextIP; trivial; lia).
    assert (Hnext : nextIP a cur = NextIP cur) by (unfold nextIP; now rewrite Hne').
    rewrite Hnext.
    destruct (negb (is_nil gw) && Equal cur gw) eqn:Eg; cbn [negb].
    + apply IH; trivial;
        [now apply validLen_NextIP | lia | lia | now rewrite addrTop_NextIP | lia].
    + destruct (Reserve id cur s) as [[[|]|e0] s1].
      * do 3 eexists. split; [reflexivity|]. exists 1%nat. reflexivity.
      * destruct (IH fuel (NextIP cur) s1) as (r & s' & tr & Hs & k & Hk); trivial;
          [now apply validLen_NextIP | lia | lia | now rewrite addrTop_NextIP | lia |].
        rewrite Hs. do 3 eexists. split; [reflexivity|].
        exists (S k). cbn [walk app] in Hk. simpl. now rewrite Hk.
      * do 3 eexists. split; [reflexivity|]. exists 1%nat. reflexivity.
Qed.

(** X8.  Round robin.  When the search is seeded from a marker that lies
    in the closed range from [start] to [end] of an ordered allocator,
    [Get] ends, and the addresses it offers to [Reserve] are, in order and
    up to where it stops, those after the marker up to [end], [end]
    included, and then those from [start] up to the marker, the marker
    excluded; the gateway is left out. *)
Theorem Get_round_robin (fuel : nat) (id : string) (s s1 : St) (m : IP) :
  requestedIP (conf a) = [] ->
  LastReservedIP (Lock s) = (Ok m, s1) ->
  startFromLastReservedIP a (Ok m) = true ->
  orderedRange a -> inClosedRange a m ->
  let n1 := Z.to_nat (addr (end_ a) - addr m) in
  let n2 := Z.to_nat (addr m - addr (start a)) in
  let after := walk n1 (NextIP m) in
  let before := walk n2 (start a) in
  (n1 + n2 + 1 < fuel)%nat ->
  map addr after = map (fun i => addr m + 1 + Z.of_nat i) (seq 0 n1) /\
  map addr before = map (fun i => addr (start a) + Z.of_nat i) (seq 0 n2) /\
  exists r s' tr,
    Get fuel a id s = Some (r, s', tr) /\
    exists k, reserved tr =
              firstn k (filter (notGateway (resolveGateway (conf a))) (after ++ before)).
Proof.
  intros Hreq Hm Hseed Hord (Hvm & [Hlo Hhi] & Htm) n1 n2 after before Hfuel.
  pose proof (orderedRange_top a Hord) as Hts.
  destruct Hord as (Hvs & Hve & Hle & _).
  assert (Hbefore : map addr before =
                    map (fun i => addr (start a) + Z.of_nat i) (seq 0 n2)).
  { apply walk_addr; trivial. subst n2. lia. }
  assert (Hafter : map addr after = map (fun i => addr m + 1 + Z.of_nat i) (seq 0 n1)).
  { subst after. destruct n1 as [|n1'] eqn:En1; [reflexivity|].
    assert (Hnx : addr (NextIP m) = addr m + 1)
      by (apply addr_NextIP; trivial; subst n1; lia).
    rewrite walk_addr;
      [| now apply validLen_NextIP | rewrite addrTop_NextIP; subst n1; lia].
    apply map_ext. intros i. lia. }
  split; [exact Hafter|]. split; [exact Hbefore|].
  pose proof (reserved_getSearchRange a (Lock s)) as Hres.
  rewrite (Get_search_eq fuel a id s Hreq).
  rewrite getSearchRange_eq in *. rewrite Hm in *. cbn [fst snd] in *.
  rewrite Hseed in *. cbn [fst snd] in *.
  assert (Hsearch : exists r s' tr,
             search fuel a (resolveGateway (conf a)) id m (nextIP a m) s1 =
             Some (r, s', tr) /\
             exists k, reserved tr =
                       firstn k (filter (notGateway (resolveGateway (conf a)))
                                        (after ++ before))).
  { unfold nextIP. destruct (Equal m (end_ a)) eqn:E.
    - apply (Equal_addr _ _ Hvm Hve) in E.
      assert (Hn1 : n1 = 0%nat) by (subst n1; lia).
      subst after. rewrite Hn1. cbn [walk app].
      apply search_towards; trivial; subst n2; lia.
    - apply (Equal_false_addr _ _ Hvm Hve) in E.
      assert (Hnx : addr (NextIP m) = addr m + 1) by (apply addr_NextIP; trivial; lia).
      destruct n1 as [|n1'] eqn:En1; [subst n1; lia|].
      subst after.
      apply search_wrapping; trivial;
        [now apply validLen_NextIP | lia | subst n1; lia | subst n2; lia
        | now rewrite addrTop_NextIP | lia]. }
  destruct Hsearch as (r & s' & tr & Hs & k & Hk).
  rewrite Hs. do 3 eexists. split; [reflexivity|].
  rewrite (reserved_Get_trace _ _ Hres). now exists k.
Qed.

End Seeded.

Lemma orderedRange_alloc30 : orderedRange alloc30.
Proof.
  unfold orderedRange, validLen. simpl. repeat split; auto.
  - vm_compute. discriminate.
  - discriminate.
Qed.

(** The second [Get] of the 10.0.0.0/30 scenario: after the marker
    10.0.0.2 comes 10.0.0.3, then, from [start], the gateway 10.0.0.1. *)
Lemma Get_round_robin_witness :
  exists k,
    [ip4 10 0 0 3] =
    firstn k (filter (notGateway (ip4 10 0 0 1)) ([ip4 10 0 0 3] ++ [ip4 10 0 0 1])).
Proof.
  assert (Hin : inClosedRange alloc30 (ip4 10 0 0 2)).
  { unfold inClosedRange, validLen. simpl. repeat split; auto; vm_compute; discriminate. }
  destruct (@Get_round_robin alloc30 MemStore memStore 4 "B"%string
              (storeWith [(ip4 10 0 0 2, "A"%string)] (ip4 10 0 0 2))
              (storeWith [(ip4 10 0 0 2, "A"%string)] (ip4 10 0 0 2))
              (ip4 10 0 0 2) eq_refl eq_refl eq_refl orderedRange_alloc30 Hin)
    as (_ & _ & r & s' & tr & Hget & Hk).
  { vm_compute. lia. }
  vm_compute in Hget. injection Hget as _ _ <-. exact Hk.
Defined.

(** ** A marker below the range *)

Section BelowStart.

Variable a : IPAllocator.
Context {St : Type} {store : Store St}.



End BelowStart.



(** ** Ranges that [NewIPAllocator] builds *)

Lemma To4_four (ip : IP) : length ip = IPv4len -> To4 ip = ip.
Proof. intros H. unfold To4. now rewrite H. Qed.

Section BuiltRanges.

Context {St : Type} {store : Store St}.

(** X10.  For a configuration without [RangeStart] and [RangeEnd] whose
    subnet address is not the subnet's broadcast address, the allocator
    that [NewIPAllocator] builds is ordered: [start] is the number after
    the subnet address and [end] is the broadcast address.  A [Get] that
    is not seeded then ends within as many iterations as lie between the
    two, and every address it offers to [Reserve] lies strictly between
    the subnet address and the broadcast address. *)
Theorem NewIPAllocator_plain_range (c : IPAMConfig) (s0 s0' : St) (tr0 : list Event)
        (a : IPAllocator) :
  NewIPAllocator c s0 = (Ok a, s0', tr0) ->
  RangeStart c = [] -> RangeEnd c = [] ->
  Equal (IPNet_IP (Subnet c)) (broadcastAddress (Subnet c)) = false ->
  orderedRange a /\
  addr (start a) = addr (IPNet_IP (Subnet c)) + 1 /\
  addr (end_ a) = addr (broadcastAddress (Subnet c)) /\
  (forall fuel id (s : St),
      requestedIP c = [] ->
      startFromLastReservedIP a (fst (LastReservedIP (Lock s))) = false ->
      (Z.to_nat (addr (broadcastAddress (Subnet c)) - addr (IPNet_IP (Subnet c)))
       <= fuel)%nat ->
      exists r s' tr,
        Get fuel a id s = Some (r, s', tr) /\
        Forall (fun x => addr (IPNet_IP (Subnet c)) < addr x
                         < addr (broadcastAddress (Subnet c))) (reserved tr)).
Proof.
  intros Hnew Hrs Hre Hhost.
  destruct (NewIPAllocator_Ok _ _ _ _ _ Hnew) as (Hrange & Hstart & Hend & Hc & _).
  rewrite Hrs in Hstart. rewrite Hre in Hend. simpl in Hstart, Hend.
  destruct (range_cut c Hrange) as [Hcut Hmask].
  destruct (subnet_address_bounds _ Hcut Hmask) as (Hv & [Hlo Hhi] & H4).
  pose proof (validLen_broadcastAddress _ Hcut Hmask) as Hvb.
  assert (Hlt : addr (IPNet_IP (Subnet c)) < addr (broadcastAddress (Subnet c))).
  { apply (Equal_false_addr _ _ Hv Hvb) in Hhost. lia. }
  pose proof (broadcast_below_top _ Hcut Hmask _ H4) as Htop.
  assert (Hn : addr (start a) = addr (IPNet_IP (Subnet c)) + 1)
    by (rewrite Hstart; apply addr_NextIP; trivial; lia).
  assert (Hord : orderedRange a).
  { unfold orderedRange. rewrite Hn, Hend, Hstart. repeat split; trivial.
    - now apply validLen_NextIP.
    - lia.
    - rewrite length_NextIP. intros H. specialize (H4 H).
      rewrite (To4_four _ H4). intros E. rewrite E in H4. discriminate H4. }
  split; [exact Hord|]. split; [exact Hn|]. split; [now rewrite Hend|].
  intros fuel id s Hreq Hseed Hfuel.
  rewrite <- Hc in Hreq.
  pose proof (orderedRange_top a Hord) as Hta.
  destruct Hord as (Hvs & Hve & Hle & _).
  set (n := Z.to_nat (addr (end_ a) - addr (start a))).
  assert (Hnn : addr (start a) + Z.of_nat n = addr (end_ a)) by (subst n; lia).
  destruct (walk_interval a n (start a) Hvs Hve Hnn Hta) as (_ & HF & _).
  destruct (search_interval a (resolveGateway (conf a)) id n fuel (start a)
              (snd (LastReservedIP (Lock s))) Hvs Hve Hnn Hta)
    as (r & s' & tr & Hs & k & Hk).
  { subst n. rewrite Hn, Hend. lia. }
  pose proof (reserved_getSearchRange a (Lock s)) as Hres.
  rewrite (Get_search_eq fuel a id s Hreq).
  rewrite getSearchRange_eq in *. rewrite Hseed in *. cbn [fst snd] in *.
  rewrite Hs. do 3 eexists. split; [reflexivity|].
  rewrite (reserved_Get_trace _ _ Hres), Hk.
  apply Forall_firstn_filter. eapply Forall_impl; [|exact HF]. cbv beta.
  intros x (_ & Hx & _). rewrite Hn, Hend in Hx. lia.
Qed.

(** X11.  In an allocator that [NewIPAllocator] builds, [start] and [end]
    are addresses of four or sixteen bytes and the gateway is not nil.  A
    given [RangeStart] lies between the network address and the broadcast
    address of the subnet, and so does a given [RangeEnd]; [end] is then the
    number after [RangeEnd], unless [RangeEnd] is the broadcast address. *)
Theorem NewIPAllocator_range_bounds (c : IPAMConfig) (s0 s0' : St) (tr0 : list Event)
        (a : IPAllocator) :
  NewIPAllocator c s0 = (Ok a, s0', tr0) ->
  validLen (start a) /\ validLen (end_ a) /\ resolveGateway c <> [] /\
  (RangeStart c <> [] ->
   addr (networkAddress (Subnet c)) <= addr (start a)
   <= addr (broadcastAddress (Subnet c))) /\
  (RangeEnd c <> [] ->
   addr (networkAddress (Subnet c)) <= addr (RangeEnd c)
   <= addr (broadcastAddress (Subnet c)) /\
   (Equal (RangeEnd c) (broadcastAddress (Subnet c)) = false ->
    addr (end_ a) = addr (RangeEnd c) + 1)).
Proof.
  intros Hnew.
  destruct (NewIPAllocator_Ok _ _ _ _ _ Hnew) as (Hrange & Hstart & Hend & Hc & Hcs & Hce).
  destruct (range_cut c Hrange) as [Hcut Hmask].
  destruct (subnet_address_bounds _ Hcut Hmask) as (Hv & _ & _).
  pose proof (validLen_broadcastAddress _ Hcut Hmask) as Hvb.
  assert (Hip : IPNet_IP (Subnet c) <> []).
  { intros E. rewrite E in Hv. destruct Hv as [Hv|Hv]; discriminate Hv. }
  split; [|split; [|split; [|split]]].
  - rewrite Hstart. destruct (is_nil (RangeStart c)) eqn:E.
    + now apply validLen_NextIP.
    + apply is_nil_false in E.
      now destruct (Contains_bounds _ Hcut Hmask _ (Hcs E)) as (H & _).
  - rewrite Hend. destruct (is_nil (RangeEnd c)) eqn:E; [exact Hvb|].
    apply is_nil_false in E. apply validLen_NextIP.
    now destruct (Contains_bounds _ Hcut Hmask _ (Hce E)) as (H & _).
  - apply is_nil_false. now apply resolveGateway_not_nil.
  - intros E. rewrite Hstart. pose proof E as E'. apply is_nil_false in E'. rewrite E'.
    now destruct (Contains_bounds _ Hcut Hmask _ (Hcs E)) as (_ & H & _).
  - intros E. destruct (Contains_bounds _ Hcut Hmask _ (Hce E)) as (Hve & Hb & H4).
    split; [exact Hb|]. intros Hne.
    rewrite Hend. pose proof E as E'. apply is_nil_false in E'. rewrite E'.
    apply (Equal_false_addr _ _ Hve Hvb) in Hne.
    pose proof (broadcast_below_top _ Hcut Hmask _ H4) as Htop.
    apply addr_NextIP; trivial. lia.
Qed.

End BuiltRanges.

(** The allocator of 10.0.0.0/30: [start] is 10.0.0.1, [end] is 10.0.0.3. *)
Lemma NewIPAllocator_plain_range_witness :
  addr (start alloc30) = addr (ip4 10 0 0 0) + 1 /\
  addr (end_ alloc30) = addr (ip4 10 0 0 3).
Proof.
  destruct (@NewIPAllocator_plain_range MemStore memStore conf30 emptyStore emptyStore []
              alloc30 eq_refl eq_refl eq_refl eq_refl) as (_ & H1 & H2 & _).
  split; [exact H1 | exact H2].
Defined.

(** The /24 with range .10 to .20: [end] is the number after .20. *)
Lemma NewIPAllocator_range_bounds_witness :
  addr (end_ alloc24range) = addr (ip4 10 0 0 20) + 1.
Proof.
  destruct (@NewIPAllocator_range_bounds MemStore conf24range emptyStore
              emptyStore [] alloc24range eq_refl) as (_ & _ & _ & _ & H).
  destruct H as [_ H]; [discriminate|]. apply H. reflexivity.
Defined.

(** ** The ends of a subnet and the forms of an IPv4 address *)

Lemma byte_eq_of_bits (x y : byte) :
  (forall j, 0 <= j < 8 ->
     Z.testbit (byte.unsigned x) j = Z.testbit (byte.unsigned y) j) ->
  x = y.
Proof.
  intros H. apply byte.unsigned_inj. apply Z.bits_inj'. intros j Hj.
  destruct (Z.ltb_spec j 8); [apply H; lia|].
  now rewrite !testbit_unsigned_high.
Qed.

Lemma masked_broadcast_byte (n k : byte) :
  byte.and n k = byte.and (byte_or n (byte_not k)) k.
Proof.
  apply byte_eq_of_bits. intros j Hj.
  rewrite !testbit_byte_and, testbit_byte_or_not by assumption.
  destruct (Z.testbit (byte.unsigned n) j), (Z.testbit (byte.unsigned k) j); reflexivity.
Qed.

Lemma maskedEqual_broadcast (nn m : list byte) :
  maskedEqual nn m (zipWith (fun x k => byte_or x (byte_not k)) nn m) = true.
Proof.
  revert m. induction nn as [|n nn IH]; intros [|k m]; simpl; trivial.
  rewrite <- masked_broadcast_byte, (Byte.byte_dec_lb eq_refl). apply IH.
Qed.

(** The slice [Contains] compares, for an address of a valid width. *)
Lemma Contains_slice (x : IP) :
  v4or16 x <> [] -> (if is_nil (To4 x) then x else To4 x) = v4or16 x.
Proof.
  intros Hn. unfold v4or16 in *. destruct (is_nil (To4 x)) eqn:E; [|reflexivity].
  unfold To16 in *. destruct (Nat.eqb (length x) IPv4len) eqn:E4.
  - apply Nat.eqb_eq in E4. rewrite (To4_four _ E4) in E.
    apply is_nil_true in E. rewrite E in E4. discriminate E4.
  - destruct (Nat.eqb (length x) IPv6len); [reflexivity | contradiction].
Qed.

(** X12.  Both ends of a subnet that [networkRange] accepts belong to it:
    the first address passes [validateRangeIP], it is not below the
    network address and not above the last address, and the last address
    passes [validateRangeIP] too whenever it is four bytes long or is not
    an IPv4-in-IPv6 address. *)
Theorem networkRange_ends_in_subnet (n : IPNet) (first last : IP) :
  networkRange n = Ok (first, last) ->
  validateRangeIP first n = None /\
  addr (networkAddress n) <= addr first <= addr last /\
  (length last = IPv4len \/ To4 last = [] -> validateRangeIP last n = None).
Proof.
  intros H. destruct (networkRange_Ok _ _ _ H) as (-> & -> & _ & Hcut & Hmask).
  destruct (subnet_address_bounds _ Hcut Hmask) as (_ & Hb & _).
  pose proof (length_broadcastAddress _ Hmask) as Hlb.
  split; [|split; [exact Hb|]].
  - apply validateRangeIP_None. unfold Contains.
    rewrite (networkNumberAndMask_ok _ Hcut Hmask), (Contains_slice _ Hcut).
    rewrite Nat.eqb_refl. simpl. apply maskedEqual_refl.
  - intros Hl. apply validateRangeIP_None. unfold Contains.
    rewrite (networkNumberAndMask_ok _ Hcut Hmask).
    assert (Hs : (if is_nil (To4 (broadcastAddress n)) then broadcastAddress n
                  else To4 (broadcastAddress n)) = broadcastAddress n).
    { destruct Hl as [Hl|Hl]; [rewrite (To4_four _ Hl)|rewrite Hl; reflexivity].
      now destruct (is_nil (broadcastAddress n)). }
    rewrite Hs, Hlb, Nat.eqb_refl. simpl. apply maskedEqual_broadcast.
Qed.

(** 10.0.0.0/24: 10.0.0.0 and 10.0.0.255 both pass. *)
Lemma networkRange_ends_in_subnet_witness :
  validateRangeIP (ip4 10 0 0 0) (mkIPNet (ip4 10 0 0 0) (ip4 255 255 255 0)) = None /\
  validateRangeIP (ip4 10 0 0 255) (mkIPNet (ip4 10 0 0 0) (ip4 255 255 255 0)) = None.
Proof.
  destruct (networkRange_ends_in_subnet
              (mkIPNet (ip4 10 0 0 0) (ip4 255 255 255 0))
              (ip4 10 0 0 0) (ip4 10 0 0 255) eq_refl) as (H1 & _ & H2).
  split; [exact H1 | apply H2; left; reflexivity].
Defined.

Lemma To4_v4InV6 (ip : IP) : length ip = IPv4len -> To4 (v4InV6Prefix ++ ip) = ip.
Proof.
  intros H. unfold IPv4len in H. list_of_length ip H. reflexivity.
Qed.

(** X13.  The two forms of an IPv4 address, four bytes and sixteen bytes
    with the IPv4-in-IPv6 prefix, are treated alike: they are [Equal],
    [validateRangeIP] accepts one exactly when it accepts the other, and as
    the address of a subnet they give [networkRange] the same last address
    (the first is returned as given) and [validateRangeIP] the same
    members. *)
Theorem ipv4_forms_alike (ip : IP) :
  length ip = IPv4len ->
  Equal (v4InV6Prefix ++ ip) ip = true /\
  (forall n, validateRangeIP (v4InV6Prefix ++ ip) n = None <->
             validateRangeIP ip n = None) /\
  (forall m,
      networkRange (mkIPNet (v4InV6Prefix ++ ip) m) =
      match networkRange (mkIPNet ip m) with
      | Ok (_, last) => Ok (v4InV6Prefix ++ ip, last)
      | Err e => Err e
      end) /\
  (forall m x,
      validateRangeIP x (mkIPNet (v4InV6Prefix ++ ip) m) = None <->
      validateRangeIP x (mkIPNet ip m) = None).
Proof.
  intros H.
  pose proof (To4_v4InV6 ip H) as H16. pose proof (To4_four ip H) as H4.
  assert (Hn : is_nil ip = false) by (destruct ip; [discriminate H | reflexivity]).
  assert (Hc : forall n, Contains n (v4InV6Prefix ++ ip) = Contains n ip).
  { intros n. unfold Contains. now rewrite H16, H4, Hn. }
  assert (Hnn : forall m, networkNumberAndMask (mkIPNet (v4InV6Prefix ++ ip) m) =
                          networkNumberAndMask (mkIPNet ip m)).
  { intros m. unfold networkNumberAndMask. cbn [IPNet_IP IPNet_Mask].
    now rewrite H16, H4, Hn. }
  split; [|split; [|split]].
  - apply Equal_addr; [right | now left|].
    + rewrite length_app, H. reflexivity.
    + unfold addr, To16. rewrite length_app, H. reflexivity.
  - intros n. now rewrite !validateRangeIP_None, Hc.
  - intros m. rewrite !networkRange_eq. unfold broadcastAddress, v4or16.
    cbn [IPNet_IP IPNet_Mask]. rewrite H16, H4. rewrite !Hn.
    cbn [is_nil app v4InV6Prefix].
    destruct (negb (Nat.eqb (length ip) (length m))); reflexivity.
  - intros m x. rewrite !validateRangeIP_None. unfold Contains. now rewrite Hnn.
Qed.

(** 10.0.0.0 in both forms, with the mask 255.255.255.0. *)
Lemma ipv4_forms_alike_witness :
  networkRange (mkIPNet (v4InV6Prefix ++ ip4 10 0 0 0) (ip4 255 255 255 0)) =
  Ok (v4InV6Prefix ++ ip4 10 0 0 0, ip4 10 0 0 255).
Proof.
  exact (proj1 (proj2 (proj2 (ipv4_forms_alike (ip4 10 0 0 0) eq_refl)))
           (ip4 255 255 255 0)).
Defined.

(** * The plugin commands *)

Lemma storeEvents_app (tr1 tr2 : list CmdEvent) :
  storeEvents (tr1 ++ tr2) = storeEvents tr1 ++ storeEvents tr2.
Proof.
  induction tr1 as [|e tr1 IH]; simpl; [reflexivity|]. destruct e; simpl; now rewrite IH.
Qed.



Lemma printed_app (tr1 tr2 : list CmdEvent) :
  printed (tr1 ++ tr2) = printed tr1 ++ printed tr2.
Proof.
  induction tr1 as [|e tr1 IH]; simpl; [reflexivity|]. destruct e; simpl; now rewrite IH.
Qed.

Lemma store_events_only (l : list Event) :
  storeEvents (map EvStore l) = l /\ opens (map EvStore l) = 0%nat /\
  closes (map EvStore l) = 0%nat /\ printed (map EvStore l) = [].
Proof.
  induction l as [|x l (H1 & H2 & H3 & H4)]; simpl; [repeat split|].
  rewrite H1. repeat split; assumption.
Qed.

Section CommandFacts.

Context {St : Type} {store : Store St}.

Variable LoadIPAMConfig : list byte -> string -> result IPAMConfig.
Variable disk_New : IPAMConfig -> St -> option error * St.
Variable Close : St -> St.
Variable Print : IPConfig -> option error.

(** The commands, case by case. *)
Lemma cmdAdd_cases (fuel : nat) (args : CmdArgs) (s s' : St) (e : option error)
      (tr : list CmdEvent) :
  cmdAdd LoadIPAMConfig disk_New Close Print fuel args s = Some (e, s', tr) ->
  match LoadIPAMConfig (StdinData args) (CmdArgs_Args args) with
  | Err e0 => e = Some e0 /\ s' = s /\ tr = []
  | Ok c =>
      match disk_New c s with
      | (Some e0, s1) => e = Some e0 /\ s' = s1 /\ tr = [EvNew c]
      | (None, s1) =>
          match fst (fst (NewIPAllocator c s1)) with
          | Err e0 => e = Some e0 /\ s' = Close s1 /\ tr = [EvNew c; EvClose]
          | Ok a =>
              exists r s3 tr3,
                Get fuel a (ContainerID args) s1 = Some (r, s3, tr3) /\
                s' = Close s3 /\
                match r with
                | Err e0 =>
                    e = Some e0 /\ tr = EvNew c :: map EvStore tr3 ++ [EvClose]
                | Ok cfg =>
                    e = Print cfg /\
                    tr = EvNew c :: (map EvStore tr3 ++ [EvPrint cfg]) ++ [EvClose]
                end
          end
      end
  end.
Proof.
  unfold cmdAdd.
  destruct (LoadIPAMConfig (StdinData args) (CmdArgs_Args args)) as [c|e0].
  2:{ intros H; injection H as <- <- <-. auto. }
  destruct (disk_New c s) as [[e0|] s1].
  { intros H; injection H as <- <- <-. auto. }
  destruct (NewIPAllocator_pure c s1) as [Hs Ht].
  destruct (NewIPAllocator c s1) as [[ra s2] tr2]. simpl in Hs, Ht. subst s2 tr2.
  cbn [fst]. destruct ra as [a|e0].
  2:{ intros H; injection H as <- <- <-. auto. }
  destruct (Get fuel a (ContainerID args) s1) as [[[[cfg|e0] s3] tr3]|]; [| |discriminate].
  - intros H; injection H as <- <- <-. do 3 eexists. repeat split.
  - intros H; injection H as <- <- <-. do 3 eexists. repeat split.
Qed.

Lemma cmdDel_cases (args : CmdArgs) (s : St) :
  cmdDel LoadIPAMConfig disk_New Close args s =
  match LoadIPAMConfig (StdinData args) (CmdArgs_Args args) with
  | Err e0 => (Some e0, s, [])
  | Ok c =>
      match disk_New c s with
      | (Some e0, s1) => (Some e0, s1, [EvNew c])
      | (None, s1) =>
          match fst (fst (NewIPAllocator c s1)) with
          | Err e0 => (Some e0, Close s1, [EvNew c; EvClose])
          | Ok a =>
              (fst (ReleaseByID (ContainerID args) (Lock s1)),
               Close (Unlock (snd (ReleaseByID (ContainerID args) (Lock s1)))),
               [EvNew c; EvStore EvLock; EvStore (EvReleaseByID (ContainerID args));
                EvStore EvUnlock; EvClose])
          end
      end
  end.
Proof.
  unfold cmdDel.
  destruct (LoadIPAMConfig (StdinData args) (CmdArgs_Args args)) as [c|e0]; [|reflexivity].
  destruct (disk_New c s) as [[e0|] s1]; [reflexivity|].
  destruct (NewIPAllocator_pure c s1) as [Hs Ht].
  destruct (NewIPAllocator c s1) as [[ra s2] tr2]. simpl in Hs, Ht. subst s2 tr2.
  cbn [fst]. destruct ra as [a|e0]; [|reflexivity].
  unfold Release. destruct (ReleaseByID (ContainerID args) (Lock s1)). reflexivity.
Qed.


(** X15.  [cmdAdd] prints at most one result, and exactly when [Get]
    succeeded: what it prints is the configuration that [Get] returned for
    the container, what it returns is then what [Print] returned, and when
    it prints nothing it returns an error. *)
Theorem cmdAdd_prints_what_Get_returned (fuel : nat) (args : CmdArgs) (s s' : St)
        (e : option error) (tr : list CmdEvent) :
  cmdAdd LoadIPAMConfig disk_New Close Print fuel args s = Some (e, s', tr) ->
  (printed tr = [] -> exists e0, e = Some e0) /\
  (forall cfg, In cfg (printed tr) ->
     printed tr = [cfg] /\ e = Print cfg /\
     exists c a s1 s3,
       LoadIPAMConfig (StdinData args) (CmdArgs_Args args) = Ok c /\
       disk_New c s = (None, s1) /\
       fst (fst (NewIPAllocator c s1)) = Ok a /\
       Get fuel a (ContainerID args) s1 = Some (Ok cfg, s3, storeEvents tr) /\
       s' = Close s3).
Proof.
  intros H. apply cmdAdd_cases in H.
  destruct (LoadIPAMConfig (StdinData args) (CmdArgs_Args args)) as [c|e0].
  2:{ destruct H as (-> & -> & ->). split; [eauto | intros cfg []]. }
  destruct (disk_New c s) as [[e0|] s1] eqn:Enew.
  { destruct H as (-> & -> & ->). split; [eauto | intros cfg []]. }
  destruct (fst (fst (NewIPAllocator c s1))) as [a|e0] eqn:En.
  2:{ destruct H as (-> & -> & ->). split; [eauto | intros cfg []]. }
  destruct H as (r & s3 & tr3 & Hget & -> & Hr).
  destruct (store_events_only tr3) as (S1 & _ & _ & S4).
  destruct r as [cfg|e0]; destruct Hr as [-> ->].
  - assert (Hp : printed (EvNew c :: (map EvStore tr3 ++ [EvPrint cfg]) ++ [EvClose])
                 = [cfg]).
    { cbn [printed]. rewrite !printed_app, S4. reflexivity. }
    assert (Hse : storeEvents (EvNew c :: (map EvStore tr3 ++ [EvPrint cfg]) ++ [EvClose])
                  = tr3).
    { cbn [storeEvents]. rewrite !storeEvents_app, S1. simpl. now rewrite !app_nil_r. }
    rewrite Hp, Hse. split; [discriminate|].
    intros cfg' [<-|[]]. split; [reflexivity|]. split; [reflexivity|].
    exists c, a, s1, s3. auto.
  - assert (Hp : printed (EvNew c :: map EvStore tr3 ++ [EvClose]) = []).
    { cbn [printed]. rewrite printed_app, S4. reflexivity. }
    rewrite Hp. split; [eauto | intros cfg []].
Qed.


End CommandFacts.


Lemma cmdAdd_prints_what_Get_returned_witness :
  printed [EvNew conf30; EvStore EvLock; EvStore EvLastReservedIP;
           EvStore (EvReserve "A" (ip4 10 0 0 2)); EvStore EvUnlock;
           EvPrint (ipConfigFor conf30 (ip4 10 0 0 2) (ip4 10 0 0 1)); EvClose] =
  [ipConfigFor conf30 (ip4 10 0 0 2) (ip4 10 0 0 1)] /\
  None = printOk (ipConfigFor conf30 (ip4 10 0 0 2) (ip4 10 0 0 1)).
Proof.
  destruct (proj2 (@cmdAdd_prints_what_Get_returned MemStore memStore loadConf30
                     openInMemory closeInMemory printOk 2%nat (argsFor "A") emptyStore
                     _ _ _ eq_refl)
              (ipConfigFor conf30 (ip4 10 0 0 2) (ip4 10 0 0 1)) (or_introl eq_refl))
    as (H1 & H2 & _).
  split; [exact H1 | exact H2].
Defined.


Lemma NewIPAllocator_any_state {St : Type} (c : IPAMConfig) (s s' : St) :
  fst (fst (NewIPAllocator c s)) = fst (fst (NewIPAllocator c s')).
Proof.
  unfold NewIPAllocator.
  destruct (networkRange (Subnet c)) as [[first last]|e]; [|reflexivity].
  destruct (negb (is_nil (RangeStart c)));
    [destruct (validateRangeIP (RangeStart c) (Subnet c)); [reflexivity|]|];
    (destruct (negb (is_nil (RangeEnd c)));
     [destruct (validateRangeIP (RangeEnd c) (Subnet c))|]); reflexivity.
Qed.

Section AddThenDel.

Variable LoadIPAMConfig : list byte -> string -> result IPAMConfig.
Variable disk_New : IPAMConfig -> MemStore -> option error * MemStore.
Variable Close : MemStore -> MemStore.
Variable Print : IPConfig -> option error.

(** X17.  Over the in-memory store, opened and closed without touching the
    table: when the configuration loads and the allocator can be built,
    [cmdDel] after [cmdAdd] for the same container succeeds and leaves no
    record of the container and every other record as it was before the
    [cmdAdd], whether the [cmdAdd] succeeded or failed, in the search or in
    printing. *)
Theorem cmdDel_undoes_cmdAdd (fuel : nat) (args : CmdArgs) (s s1 : MemStore)
        (e : option error) (tr : list CmdEvent) (c : IPAMConfig) (a : IPAllocator) :
  (forall c0 s0, disk_New c0 s0 = (None, s0)) ->
  (forall s0, Close s0 = s0) ->
  LoadIPAMConfig (StdinData args) (CmdArgs_Args args) = Ok c ->
  fst (fst (NewIPAllocator c s)) = Ok a ->
  cmdAdd LoadIPAMConfig disk_New Close Print fuel args s = Some (e, s1, tr) ->
  fst (fst (cmdDel LoadIPAMConfig disk_New Close args s1)) = None /\
  records (snd (fst (cmdDel LoadIPAMConfig disk_New Close args s1))) =
  filter (fun r => negb (String.eqb (snd r) (ContainerID args))) (records s).
Proof.
  intros Hnew Hclose Hload Hbuild Hadd.
  apply cmdAdd_cases in Hadd. rewrite cmdDel_cases. rewrite Hload in *.
  rewrite !Hnew in *. rewrite Hbuild in Hadd.
  rewrite (NewIPAllocator_any_state c s1 s), Hbuild.
  destruct Hadd as (r & s3 & tr3 & Hget & -> & _).
  rewrite !Hclose. cbn [fst snd]. split; [reflexivity|].
  pose proof (Get_mem_effect _ _ _ _ _ _ _ Hget) as H.
  simpl. destruct r as [cfg|e0]; [|now subst].
  destruct H as [_ ->]. simpl. rewrite filter_app. simpl.
  rewrite String.eqb_refl. simpl. apply app_nil_r.
Qed.

End AddThenDel.

(** ADD for container A on the empty table, then DEL for A: the table is
    empty again. *)
Lemma cmdDel_undoes_cmdAdd_witness :
  records (snd (fst (cmdDel loadConf30 openInMemory closeInMemory (argsFor "A")
                       (storeWith [(ip4 10 0 0 2, "A"%string)] (ip4 10 0 0 2))))) =
  [].
Proof.
  exact (proj2 (cmdDel_undoes_cmdAdd loadConf30 openInMemory closeInMemory printOk
                  2 (argsFor "A") emptyStore _ _ _ conf30 alloc30
                  (fun _ _ => eq_refl) (fun _ => eq_refl) eq_refl eq_refl eq_refl)).
Defined.

(** * Membership in the subnet *)

(** X18.  In a subnet that [networkRange] accepts, [validateRangeIP] lets
    through only addresses of four or sixteen bytes (so never nil) whose
    number lies between the network address and the broadcast address,
    both included; what it refuses it reports with the address and the
    subnet. *)
Theorem validateRangeIP_within_subnet (n : IPNet) (first last x : IP) :
  networkRange n = Ok (first, last) ->
  (validateRangeIP x n = None ->
   validLen x /\ x <> [] /\
   addr (networkAddress n) <= addr x <= addr last) /\
  (forall e, validateRangeIP x n = Some e -> e = ErrNotInNetwork x n).
Proof.
  intros H. destruct (networkRange_Ok _ _ _ H) as (-> & -> & _ & Hcut & Hmask).
  split.
  - intros Hv. apply validateRangeIP_None in Hv.
    destruct (Contains_bounds _ Hcut Hmask x Hv) as (Hl & Hb & _).
    split; [exact Hl|]. split; [|exact Hb].
    intros ->. destruct Hl as [Hl|Hl]; discriminate Hl.
  - intros e He. now apply validateRangeIP_Some in He.
Qed.

(** 10.0.0.20 in 10.0.0.0/24. *)
Lemma validateRangeIP_within_subnet_witness :
  addr (networkAddress (Subnet conf24range)) <= addr (ip4 10 0 0 20)
  <= addr (ip4 10 0 0 255).
Proof.
  destruct (proj1 (validateRangeIP_within_subnet (Subnet conf24range)
                     (ip4 10 0 0 0) (ip4 10 0 0 255) (ip4 10 0 0 20) eq_refl) eq_refl)
    as (_ & _ & H).
  exact H.
Defined.
